(** * gh gist create: file collection, gist-name guessing and orchestration

    A shallow embedding of [pkg/cmd/gist/create/create.go] and the
    properties of [processFiles], [guessGistName] and [createRun].

    Go strings are byte sequences; they are modelled by [string]
    (a list of 8-bit [ascii] values).  [map[string]string] is a
    [gmap string string]. *)

From Stdlib Require Import Ascii Decimal DecimalNat DecimalString.
From stdpp Require Import gmap strings list sorting.

(** * Part I: the program *)

(** ** Go standard-library pieces used by the command *)

(** [x > y] on [int] values that are lengths. *)
Global Instance nat_gt_dec : RelDecision gt := λ x y, decide (y < x).

Module Strings.

(** [strings.HasPrefix(s, prefix)]. *)
Fixpoint HasPrefix (s prefix : string) {struct prefix} : bool :=
  match prefix with
  | "" => true
  | String c prefix' =>
      match s with
      | "" => false
      | String d s' => if decide (c = d) then HasPrefix s' prefix' else false
      end
  end.

(** [strings.Contains(s, substr)]: [substr] occurs somewhere in [s]. *)
Fixpoint Contains (s substr : string) : bool :=
  HasPrefix s substr ||
  match s with
  | "" => false
  | String _ s' => Contains s' substr
  end.

(** The line feed written by the ["\n"] escape and by [Fprintln]. *)
Definition LF : string := String "010"%char "".

End Strings.

(** The fragment of RE2 syntax that the command's pattern uses: literal
    bytes, the class [\d] (the ASCII digits), concatenation and [+].
    Matching is by Brzozowski derivatives.  The pattern of the command is
    anchored on both sides ([^...$], no multi-line flag), so
    [MatchString] decides whether the whole string is in the language. *)

Module Regexp.

Inductive regexp : Type :=
| Void
| Eps
| Lit (c : ascii)
| Digit
| Cat (r1 r2 : regexp)
| Alt (r1 r2 : regexp)
| Star (r : regexp).

(** [r+] *)
Definition Plus (r : regexp) : regexp := Cat r (Star r).

(** A literal word. *)
Fixpoint Word (w : string) : regexp :=
  match w with
  | "" => Eps
  | String c w' => Cat (Lit c) (Word w')
  end.

(** [\d] is [[0-9]]. *)
Definition is_digit (c : ascii) : bool :=
  match c with
  | "0" | "1" | "2" | "3" | "4" | "5" | "6" | "7" | "8" | "9" => true
  | _ => false
  end%char.

Fixpoint nullable (r : regexp) : bool :=
  match r with
  | Void | Lit _ | Digit => false
  | Eps | Star _ => true
  | Cat r1 r2 => nullable r1 && nullable r2
  | Alt r1 r2 => nullable r1 || nullable r2
  end.

Fixpoint deriv (c : ascii) (r : regexp) : regexp :=
  match r with
  | Void | Eps => Void
  | Lit d => if decide (c = d) then Eps else Void
  | Digit => if is_digit c then Eps else Void
  | Cat r1 r2 =>
      if nullable r1 then Alt (Cat (deriv c r1) r2) (deriv c r2)
      else Cat (deriv c r1) r2
  | Alt r1 r2 => Alt (deriv c r1) (deriv c r2)
  | Star r1 => Cat (deriv c r1) (Star r1)
  end.

(** Whole-string match ([^r$]). *)
Fixpoint MatchString (r : regexp) (s : string) : bool :=
  match s with
  | "" => nullable r
  | String c s' => MatchString (deriv c r) s'
  end.

(** The language of a regular expression, as a relation. *)
Inductive lang : regexp → string → Prop :=
| lang_Eps : lang Eps ""
| lang_Lit c : lang (Lit c) (String c "")
| lang_Digit c : is_digit c = true → lang Digit (String c "")
| lang_Cat r1 r2 s1 s2 : lang r1 s1 → lang r2 s2 → lang (Cat r1 r2) (s1 +:+ s2)
| lang_Alt_l r1 r2 s : lang r1 s → lang (Alt r1 r2) s
| lang_Alt_r r1 r2 s : lang r2 s → lang (Alt r1 r2) s
| lang_Star_nil r : lang (Star r) ""
| lang_Star_cons r s1 s2 :
    lang r s1 → lang (Star r) s2 → lang (Star r) (s1 +:+ s2).

(** A string of ASCII digits. *)
Fixpoint all_digits (s : string) : bool :=
  match s with
  | "" => true
  | String c s' => is_digit c && all_digits s'
  end.

End Regexp.

Module Path.

(** [path[i+1:]] for [i] the index of the last slash of [path];
    [None] when [path] has no slash ([lastSlash] returns [-1]). *)
Fixpoint afterLastSlash (path : string) : option string :=
  match path with
  | "" => None
  | String c path' =>
      match afterLastSlash path' with
      | Some t => Some t
      | None => if decide (c = "/"%char) then Some path' else None
      end
  end.

(** [path] without its trailing slashes. *)
Fixpoint stripTrailingSlashes (path : string) : string :=
  match path with
  | "" => ""
  | String c path' =>
      let r := stripTrailingSlashes path' in
      if decide (c = "/"%char ∧ r = "") then "" else String c r
  end.

(** [path.Base]: the last element of [path]. *)
Definition Base (path : string) : string :=
  if decide (path = "") then "."
  else
    let path := stripTrailingSlashes path in
    let path := default path (afterLastSlash path) in
    if decide (path = "") then "/" else path.

End Path.

Module Fmt.

(** The [%d] verb on a non-negative [int]: decimal digits, no sign and
    no leading zero. *)
Definition Sprint_d (i : nat) : string :=
  NilEmpty.string_of_uint (Nat.to_uint i).

End Fmt.

(** ** Errors

    An [error] value is seen through its [Error] text, its [Unwrap]
    chain and whether its dynamic type is [api.HTTPError]. *)

(** [api.HTTPError]; the command reads [OAuthScopes] only.  The text of
    its [Error] method is defined by package [api] and kept as a field. *)
Record HTTPError : Type := {
  OAuthScopes : string;
  HTTPErrorText : string;
}.

Inductive error : Type :=
| errorString (s : string)                  (* errors.New, fmt.Errorf without %w *)
| wrapError (msg : string) (err : error)    (* fmt.Errorf with %w *)
| httpError (e : HTTPError).                (* an api.HTTPError value *)

Global Instance HTTPError_eq_dec : EqDecision HTTPError.
Proof. solve_decision. Defined.
Global Instance error_eq_dec : EqDecision error.
Proof. solve_decision. Defined.

Module Errors.

Definition Error (e : error) : string :=
  match e with
  | errorString s => s
  | wrapError msg _ => msg
  | httpError h => HTTPErrorText h
  end.

Definition Unwrap (e : error) : option error :=
  match e with
  | wrapError _ err => Some err
  | _ => None
  end.

Definition New (text : string) : error := errorString text.

(** [fmt.Errorf(prefix + "%w", err)]: the format strings of the command
    all end in the [%w] verb. *)
Definition Errorf_w (prefix : string) (err : error) : error :=
  wrapError (prefix +:+ Error err) err.

(** [errors.As(err, &httpError)] with [httpError] of type
    [api.HTTPError]: the first error of that type in the chain of [err]. *)
Fixpoint As_HTTPError (err : error) : option HTTPError :=
  match err with
  | httpError h => Some h
  | wrapError _ err' => As_HTTPError err'
  | errorString _ => None
  end.

End Errors.

(** ** Streams and the outside world *)

(** [io.ReadCloser], as used on standard input: [ioutil.ReadAll] reads
    the stream to its end and returns the bytes and an error;
    [Close] releases it (the command ignores the result of [Close]). *)
Class ReadCloser (R : Type) : Type := {
  ReadAll : R → (string * option error) * R;
  Close : R → R;
}.

(** Calls that the command makes on the input side. *)
Inductive event : Type :=
| EvReadAll (err : option error)                 (* ioutil.ReadAll(stdin) *)
| EvClose                                        (* stdin.Close() *)
| EvReadFile (name : string) (err : option error). (* ioutil.ReadFile(name) *)

Global Instance event_eq_dec : EqDecision event.
Proof. solve_decision. Defined.

(** [iostreams.IOStreams] ([In], [Out], [ErrOut]: what has been written
    so far) together with the history of input calls. *)
Record World (R : Type) : Type := {
  In : R;
  Out : string;
  ErrOut : string;
  history : list event;
}.
Arguments In {R} _.
Arguments Out {R} _.
Arguments ErrOut {R} _.
Arguments history {R} _.

(** [api.Gist]: the command reads [HTMLURL] only. *)
Record Gist : Type := { HTMLURL : string }.

(** [*http.Client] is opaque to the command. *)
Definition Client : Type := unit.

(** What the command is given from outside this file: the local file
    system, the client factory of the options, [apiCreate] (the single
    network call, in [http.go]), the default host and the colour functions
    of package [utils]. *)
Record Env : Type := {
  ReadFile : string → string * option error;
  HttpClient : Client + error;
  OverridableDefault : string;
  apiCreate : Client → string → string → bool → gmap string string → Gist + error;
  Gray : string → string;
  Green : string → string;
  Red : string → string;
}.

Record CreateOptions : Type := {
  Description : string;
  Public : bool;
  Filenames : list string;
}.

(** ** The command *)

Section Command.

Context {R : Type} `{!ReadCloser R}.
Variable env : Env.

(** [ioutil.ReadAll(stdin)] on the [In] stream of the world. *)
Definition readAllStdin (w : World R) : (string * option error) * World R :=
  let '(res, r) := ReadAll (In w) in
  (res, {| In := r; Out := Out w; ErrOut := ErrOut w;
           history := history w ++ [EvReadAll res.2] |}).

(** [stdin.Close()]. *)
Definition closeStdin (w : World R) : World R :=
  {| In := Close (In w); Out := Out w; ErrOut := ErrOut w;
     history := history w ++ [EvClose] |}.

(** [ioutil.ReadFile(f)]. *)
Definition readFile (f : string) (w : World R) : (string * option error) * World R :=
  let res := ReadFile env f in
  (res, {| In := In w; Out := Out w; ErrOut := ErrOut w;
           history := history w ++ [EvReadFile f res.2] |}).

(** [fmt.Fprintf(opts.IO.ErrOut, ...)] and [fmt.Fprintln(opts.IO.Out, ...)]
    with the text already formatted. *)
Definition writeErrOut (text : string) (w : World R) : World R :=
  {| In := In w; Out := Out w; ErrOut := ErrOut w +:+ text;
     history := history w |}.

Definition writeOut (text : string) (w : World R) : World R :=
  {| In := In w; Out := Out w +:+ text; ErrOut := ErrOut w;
     history := history w |}.

(** [fmt.Sprintf("gistfile%d.txt", i)] *)
Definition gistfileName (i : nat) : string :=
  "gistfile" +:+ Fmt.Sprint_d i +:+ ".txt".

(** The body of [for i, f := range filenames] in [processFiles], from
    index [i] on, with the map [fs] built so far.  The result is the
    pair [(fs, err)] of the [return] that ends the function. *)
Fixpoint processFilesFrom (i : nat) (filenames : list string)
    (fs : gmap string string) (w : World R)
    : (gmap string string * option error) * World R :=
  match filenames with
  | [] => ((fs, None), w)
  | f :: filenames' =>
      if decide (f = "-") then
        let filename := gistfileName i in
        let '((content, err), w) := readAllStdin w in
        match err with
        | Some err =>
            ((fs, Some (Errors.Errorf_w "failed to read from stdin: " err)), w)
        | None =>
            let w := closeStdin w in
            processFilesFrom (S i) filenames' (<[filename := content]> fs) w
        end
      else
        let '((content, err), w) := readFile f w in
        match err with
        | Some err =>
            ((fs, Some (Errors.Errorf_w ("failed to read file " +:+ f +:+ ": ") err)), w)
        | None =>
            let filename := Path.Base f in
            processFilesFrom (S i) filenames' (<[filename := content]> fs) w
        end
  end.

(** [processFiles(stdin, filenames)]; [stdin] is [opts.IO.In], the [In]
    stream of the world.  A [nil] map is [None]. *)
Definition processFiles (filenames : list string) (w : World R)
    : (option (gmap string string) * option error) * World R :=
  let fs : gmap string string := ∅ in
  if decide (length filenames = 0) then
    ((None, Some (Errors.New "no files passed")), w)
  else
    let '((fs, err), w) := processFilesFrom 0 filenames fs w in
    ((Some fs, err), w).

End Command.

(** [regexp.MustCompile(`^gistfile\d+\.txt$`)] *)
Definition re : Regexp.regexp :=
  Regexp.Cat (Regexp.Word "gistfile")
    (Regexp.Cat (Regexp.Plus Regexp.Digit) (Regexp.Word ".txt")).

(** [sort.Strings]: increasing byte-wise order.  The order is total and
    antisymmetric, so every sorting algorithm gives the same list. *)
Definition sortStrings (a : list string) : list string :=
  merge_sort (≤)%string a.

(** The loop [for k := range files] of [guessGistName] over the keys in
    the order [keys] in which the map happens to deliver them. *)
Fixpoint collectNames (keys : list string) (filenames : list string) : list string :=
  match keys with
  | [] => filenames
  | k :: keys' =>
      if negb (Regexp.MatchString re k) then collectNames keys' (filenames ++ [k])
      else collectNames keys' filenames
  end.

(** [guessGistName] when the map delivers its keys in the order [keys].
    [filenames[0]] is read only when [len(filenames) > 0]. *)
Definition guessGistNameIn (keys : list string) : string :=
  let filenames := collectNames keys [] in
  let gistName := "" in
  if decide (length filenames > 0) then
    let filenames := sortStrings filenames in
    default gistName (filenames !! 0)
  else gistName.

(** Go leaves the iteration order of a map open: any arrangement of the
    keys is a possible order. *)
Definition rangeOrder (files : gmap string string) (keys : list string) : Prop :=
  keys ≡ₚ (map_to_list files).*1.

(** [guessGistName(files)], on one fixed order; the result is the same
    on every order (see [guessGistNameIn_order] below). *)
Definition guessGistName (files : gmap string string) : string :=
  guessGistNameIn (map_to_list files).*1.

(** Lines 103-112 of [createRun]: the progress and completion messages
    from the guessed name and [len(files)]. *)
Definition messages (gistName : string) (nfiles : nat) : string * string :=
  let processMessage := "Creating gist..." in
  let completionMessage := "Created gist" in
  if decide (gistName ≠ "") then
    let processMessage :=
      if decide (nfiles > 1) then "Creating gist with multiple files"
      else "Creating gist " +:+ gistName in
    let completionMessage := "Created gist " +:+ gistName in
    (processMessage, completionMessage)
  else (processMessage, completionMessage).

(** The text of the error returned at line 127. *)
Definition scopeMessage : string :=
  "This command requires the 'gist' OAuth scope." +:+ Strings.LF +:+
  "Please re-authenticate by doing `gh config set -h github.com oauth_token ''` and running the command again.".

Section Run.

Context {R : Type} `{!ReadCloser R}.
Variable env : Env.

(** [createRun(opts)]: the returned error and the world afterwards. *)
Definition createRun (opts : CreateOptions) (w : World R) : option error * World R :=
  let fileArgs := Filenames opts in
  let fileArgs := if decide (length fileArgs = 0) then ["-"] else fileArgs in
  let '((files, err), w) := processFiles env fileArgs w in
  match err with
  | Some err =>
      (Some (Errors.Errorf_w "failed to collect files for posting: " err), w)
  | None =>
      let files := default ∅ files in
      let gistName := guessGistName files in
      let '(processMessage, completionMessage) := messages gistName (size files) in
      let w := writeErrOut (Gray env "-" +:+ " " +:+ processMessage +:+ Strings.LF) w in
      match HttpClient env with
      | inr err => (Some err, w)
      | inl httpClient =>
          match apiCreate env httpClient (OverridableDefault env)
                  (Description opts) (Public opts) files with
          | inr err =>
              match Errors.As_HTTPError err with
              | Some httpErr =>
                  if bool_decide (OAuthScopes httpErr ≠ "")
                     && negb (Strings.Contains (OAuthScopes httpErr) "gist")
                  then (Some (errorString scopeMessage), w)
                  else (Some (Errors.Errorf_w (Red env "X" +:+ " Failed to create gist: ") err), w)
              | None =>
                  (Some (Errors.Errorf_w (Red env "X" +:+ " Failed to create gist: ") err), w)
              end
          | inl gist =>
              let w := writeErrOut (Green env "???" +:+ " " +:+ completionMessage +:+ Strings.LF) w in
              let w := writeOut (HTMLURL gist +:+ Strings.LF) w in
              (None, w)
          end
      end
  end.

End Run.

(** ** Streams and environments to run the command on *)

(** An in-memory stream behind [ioutil.NopCloser], as the test streams
    of package [iostreams]: a read drains the buffer, [Close] does
    nothing. *)
Record Buffer : Type := { pending : string }.

Global Instance Buffer_ReadCloser : ReadCloser Buffer := {|
  ReadAll b := ((pending b, None), {| pending := "" |});
  Close b := b;
|}.

(** A file descriptor, as [os.Stdin]: once closed, reads fail. *)
Record File : Type := { contents : string; closed : bool }.

Global Instance File_ReadCloser : ReadCloser File := {|
  ReadAll f :=
    if closed f then (("", Some (errorString "file already closed")), f)
    else ((contents f, None), {| contents := ""; closed := false |});
  Close f := {| contents := contents f; closed := true |};
|}.

Definition startWorld {R : Type} (stdin : R) : World R :=
  {| In := stdin; Out := ""; ErrOut := ""; history := [] |}.

(** A file system given by a list of names and contents; every other
    name fails to open. *)
Fixpoint lookupFile (disk : list (string * string)) (f : string) : string * option error :=
  match disk with
  | [] => ("", Some (errorString ("open " +:+ f +:+ ": no such file or directory")))
  | (name, content) :: disk' =>
      if decide (name = f) then (content, None) else lookupFile disk' f
  end.

(** An environment without colours whose remote call gives [reply]. *)
Definition plainEnv (disk : list (string * string)) (reply : Gist + error) : Env :=
  {| ReadFile := lookupFile disk;
     HttpClient := inl tt;
     OverridableDefault := "github.com";
     apiCreate := λ _ _ _ _ _, reply;
     Gray := λ s, s; Green := λ s, s; Red := λ s, s |}.

(** ** Vocabulary of the statements *)

(** A name of the form [gistfileN.txt], [N] a decimal numeral: the
    synthetic names given to standard input. *)
Definition syntheticName (k : string) : Prop :=
  ∃ ds, ds ≠ "" ∧ Regexp.all_digits ds = true ∧ k = "gistfile" +:+ ds +:+ ".txt".

(** A key that the pattern of [guessGistName] does not match. *)
Definition realName (k : string) : Prop := Regexp.MatchString re k = false.

Global Instance realName_dec k : Decision (realName k).
Proof. unfold realName. apply _. Defined.

(** Calls on standard input in a history. *)
Definition isReadAll (e : event) : bool :=
  match e with EvReadAll _ => true | _ => false end.

Definition isClose (e : event) : bool :=
  match e with EvClose => true | _ => false end.

Definition stdinReads (h : list event) : nat := length (List.filter isReadAll h).
Definition stdinCloses (h : list event) : nat := length (List.filter isClose h).

(** A read that returned an error. *)
Definition readFailed (e : event) : Prop :=
  match e with
  | EvReadAll (Some _) | EvReadFile _ (Some _) => True
  | _ => False
  end.

(** The number of ["-"] tokens of an argument list. *)
Definition stdinTokens (filenames : list string) : nat :=
  length (List.filter (λ f, bool_decide (f = "-")) filenames).

(** The assignment [fs[path.Base(f)] = string(content)] for a file
    that is read without error. *)
Definition insertFile (env : Env) (fs : gmap string string) (f : string)
    : gmap string string :=
  <[Path.Base f := (ReadFile env f).1]> fs.

(** The arguments that [createRun] hands to [processFiles]. *)
Definition fileArgsOf (opts : CreateOptions) : list string :=
  if decide (length (Filenames opts) = 0) then ["-"] else Filenames opts.

(** The two lines that [createRun] writes to [ErrOut] for a file set. *)
Definition progressLine (env : Env) (files : gmap string string) : string :=
  Gray env "-" +:+ " " +:+ (messages (guessGistName files) (size files)).1 +:+ Strings.LF.

Definition completionLine (env : Env) (files : gmap string string) : string :=
  Green env "???" +:+ " " +:+ (messages (guessGistName files) (size files)).2 +:+ Strings.LF.

(** The error that [createRun] returns for a failed remote call that is
    not a scope failure. *)
Definition publishError (env : Env) (err : error) : error :=
  Errors.Errorf_w (Red env "X" +:+ " Failed to create gist: ") err.

Definition hasSubstring (s sub : string) : Prop := ∃ a b, s = a +:+ sub +:+ b.

(** The scope field of the [api.HTTPError] in the chain of [err] does
    not name the [gist] scope. *)
Definition lacksGistScope (err : error) : Prop :=
  ∃ h, Errors.As_HTTPError err = Some h ∧ ¬ hasSubstring (OAuthScopes h) "gist".

(** The same, for a scope field that is not empty. *)
Definition insufficientScope (err : error) : Prop :=
  ∃ h, Errors.As_HTTPError err = Some h ∧ OAuthScopes h ≠ "" ∧
       ¬ hasSubstring (OAuthScopes h) "gist".

(** ** Concrete runs *)

Module Examples.

Definition gist1 : Gist := {| HTMLURL := "https://gist.github.com/aa5a315d61ae9438b18d" |}.

Definition optsFor (filenames : list string) : CreateOptions :=
  {| Description := "an example"; Public := false; Filenames := filenames |}.

(** Two local files whose names have the synthetic form. *)
Definition diskSynthetic : list (string * string) :=
  [("gistfile1.txt", "one"); ("notes/gistfile5.txt", "five")].

(** Two files with the same basename and a third one. *)
Definition diskSameBase : list (string * string) :=
  [("a/hello.py", "first"); ("b/hello.py", "second"); ("cool.txt", "cool")].

(** A local file named like the first synthetic name. *)
Definition diskShadow : list (string * string) :=
  [("gistfile0.txt", "from the file")].

(** A reply of the server that carries no scope header. *)
Definition noScopes : error :=
  httpError {| OAuthScopes := ""; HTTPErrorText := "HTTP 401: Bad credentials" |}.

(** A reply of the server to a token without the [gist] scope. *)
Definition repoScopes : error :=
  httpError {| OAuthScopes := "repo, read:org"; HTTPErrorText := "HTTP 404: Not Found" |}.

Definition filesABC : gmap string string :=
  <["gistfile0.txt" := "stdin"]> (<["b.py" := "b"]> (<["a.py" := "a"]> ∅)).

Definition envSynthetic : Env := plainEnv diskSynthetic (inl gist1).
Definition envSameBase : Env := plainEnv diskSameBase (inl gist1).
Definition envShadow : Env := plainEnv diskShadow (inl gist1).
Definition envNoScopes : Env := plainEnv diskSameBase (inr noScopes).
Definition envRepoScopes : Env := plainEnv diskSameBase (inr repoScopes).

(** Standard input is a pipe that holds some text. *)
Definition piped : World Buffer := startWorld {| pending := "piped text" |}.

Definition argsSynthetic : list string := ["gistfile1.txt"; "notes/gistfile5.txt"].
Definition argsSameBase : list string := ["a/hello.py"; "cool.txt"; "b/hello.py"].
Definition argsShadow : list string := ["-"; "gistfile0.txt"].
Definition argsTwoStdin : list string := ["-"; "-"].
Definition argsFileAndStdin : list string := ["cool.txt"; "-"].
Definition argsMissing : list string := ["cool.txt"; "missing.txt"; "-"].

(** The runs of the collector and of the command that the statements
    below look at. *)
Definition collectMissing := processFiles envSameBase argsMissing piped.
Definition collectFileAndStdin := processFiles envSameBase argsFileAndStdin piped.
Definition runSameBase := createRun envSameBase (optsFor argsSameBase) piped.

End Examples.

(** ** The command line: [NewCmdCreate]

    The two functions that [NewCmdCreate] gives to the command: [Args],
    which validates the positional arguments, and [RunE]. *)

(** [&cmdutil.FlagError{Err: err}]: its text and its [Unwrap] are those
    of [Err]. *)
Definition FlagError (err : error) : error := wrapError (Errors.Error err) err.

(** The [Args] function; [isStdinTTY] is the answer of
    [opts.IO.IsStdinTTY()]. *)
Definition cmdArgs (isStdinTTY : bool) (args : list string) : option error :=
  if decide (length args > 0) then None
  else if isStdinTTY then
    Some (FlagError (Errors.New "no filenames passed and nothing on STDIN"))
  else None.

(** The [RunE] function: [opts.Filenames = args], then [runF] when one
    was given and [createRun] otherwise. *)
Definition cmdRunE {R : Type} `{!ReadCloser R} (env : Env)
    (runF : option (CreateOptions → World R → option error * World R))
    (opts : CreateOptions) (args : list string) (w : World R)
    : option error * World R :=
  let opts := {| Description := Description opts; Public := Public opts;
                 Filenames := args |} in
  match runF with
  | Some runF => runF opts w
  | None => createRun env opts w
  end.

(** A run of the command: the framework calls [Args] and, when it
    returns no error, [RunE]. *)
Definition execute {R : Type} `{!ReadCloser R} (env : Env) (isStdinTTY : bool)
    (runF : option (CreateOptions → World R → option error * World R))
    (opts : CreateOptions) (args : list string) (w : World R)
    : option error * World R :=
  match cmdArgs isStdinTTY args with
  | Some err => (Some err, w)
  | None => cmdRunE env runF opts args w
  end.

(** ** Further vocabulary *)

(** The key under which [processFiles] stores the token [f] found at
    index [i]. *)
Definition tokenKey (i : nat) (f : string) : string :=
  if decide (f = "-") then gistfileName i else Path.Base f.

(** A byte of the string is a slash. *)
Fixpoint hasSlash (s : string) : bool :=
  match s with
  | "" => false
  | String c s' => bool_decide (c = "/"%char) || hasSlash s'
  end.

(** Two environments with the same file system. *)
Definition sameFiles (env env' : Env) : Prop :=
  ∀ f, ReadFile env f = ReadFile env' f.

Module MoreExamples.

(** A file system with one file, and a remote call that must not be
    reached. *)
Definition envHello : Env :=
  plainEnv [("src/hello.py", "print(1)")] (inl Examples.gist1).

(** An environment whose client factory fails. *)
Definition envNoClient : Env :=
  {| ReadFile := lookupFile Examples.diskSameBase;
     HttpClient := inr (errorString "could not find hosts config");
     OverridableDefault := "github.com";
     apiCreate := λ _ _ _ _ _, inl Examples.gist1;
     Gray := λ s, s; Green := λ s, s; Red := λ s, s |}.

(** The same with another remote end and other colours for the lines
    that are not reached. *)
Definition envNoClient' : Env :=
  {| ReadFile := lookupFile Examples.diskSameBase;
     HttpClient := inr (errorString "could not find hosts config");
     OverridableDefault := "example.com";
     apiCreate := λ _ _ _ _ _, inr Examples.noScopes;
     Gray := λ s, s; Green := λ s, "ok " +:+ s; Red := λ s, "no " +:+ s |}.

(** A file, standard input and a second file with the basename of the
    first. *)
Definition argsMixed : list string := ["a/hello.py"; "-"; "b/hello.py"].

Definition collectMixed := processFiles Examples.envSameBase argsMixed Examples.piped.
Definition filesMixed : gmap string string := default ∅ collectMixed.1.1.

(** A run that fails at its second token. *)
Definition collectFailing :=
  processFiles Examples.envSameBase Examples.argsMissing Examples.piped.
Definition errFailing : error := default (errorString "") collectFailing.1.2.

(** The files of [Examples.filesABC] with other contents. *)
Definition filesABC' : gmap string string := (λ _, "rewritten") <$> Examples.filesABC.

Definition optsPipe : CreateOptions := Examples.optsFor [].
Definition optsHello : CreateOptions := Examples.optsFor ["src/hello.py"].

(** The command on the list whose second file is missing. *)
Definition runFailing :=
  createRun Examples.envSameBase (Examples.optsFor Examples.argsMissing) Examples.piped.
Definition errRunFailing : error := default (errorString "") runFailing.1.

End MoreExamples.

(** ** The reads of a run, token by token *)

(** The input calls of one iteration of the loop of [processFiles]
    whose read gives no error: standard input is read and then closed,
    a file is read. *)
Definition okEvents (f : string) : list event :=
  if decide (f = "-") then [EvReadAll None; EvClose] else [EvReadFile f None].

(** Standard input after such an iteration. *)
Definition useStdin {R : Type} `{!ReadCloser R} (r : R) (f : string) : R :=
  if decide (f = "-") then Close (ReadAll r).2 else r.

(** The error of the read that the loop makes for the token [f] when
    standard input is [r]. *)
Definition tokenReadError {R : Type} `{!ReadCloser R} (env : Env) (r : R)
    (f : string) : option error :=
  if decide (f = "-") then (ReadAll r).1.2 else (ReadFile env f).2.

(** The error of the read of the token at index [n] of the list [l],
    when the reads of the tokens before it gave no error and standard
    input was [r] at the start. *)
Definition readErrorAt {R : Type} `{!ReadCloser R} (env : Env) (r : R)
    (l : list string) (n : nat) : option error :=
  match l !! n with
  | Some f => tokenReadError env (foldl useStdin r (take n l)) f
  | None => None
  end.

(** The text before the cause in the error for a failed read of [f]. *)
Definition readErrorPrefix (f : string) : string :=
  if decide (f = "-") then "failed to read from stdin: "
  else "failed to read file " +:+ f +:+ ": ".

(** * Part II: properties *)

(** ** Strings *)

Lemma string_app_nil_l (s : string) : "" +:+ s = s.
Proof. reflexivity. Qed.

Lemma string_app_cons (c : ascii) (s t : string) : String c s +:+ t = String c (s +:+ t).
Proof. reflexivity. Qed.

Lemma string_app_nil_r (s : string) : s +:+ "" = s.
Proof. induction s as [|c s IH]; [done|]. by rewrite string_app_cons, IH. Qed.

Lemma string_app_assoc (s t u : string) : s +:+ (t +:+ u) = (s +:+ t) +:+ u.
Proof. induction s as [|c s IH]; [done|]. by rewrite !string_app_cons, IH. Qed.

Lemma string_app_eq_nil (s t : string) : s +:+ t = "" → s = "" ∧ t = "".
Proof. destruct s; [done|]. rewrite string_app_cons. discriminate. Qed.

Lemma string_app_inj_l (s t u : string) : s +:+ t = s +:+ u → t = u.
Proof. apply (inj (String.app s)). Qed.

Lemma HasPrefix_spec (s p : string) :
  Strings.HasPrefix s p = true ↔ ∃ t, s = p +:+ t.
Proof.
  revert s; induction p as [|c p IH]; intros s; simpl.
  - split; [intros _; by exists s | done].
  - destruct s as [|d s].
    + split; [done | intros [t Ht]; discriminate].
    + case_decide as Hcd; subst.
      * rewrite IH. split; intros [t Ht]; exists t; rewrite string_app_cons in *; congruence.
      * split; [done | intros [t Ht]; rewrite string_app_cons in Ht; congruence].
Qed.

Lemma Contains_spec (s p : string) :
  Strings.Contains s p = true ↔ ∃ a b, s = a +:+ p +:+ b.
Proof.
  induction s as [|d s IH].
  - cbn [Strings.Contains]. rewrite orb_false_r, HasPrefix_spec. split.
    + intros [t Ht]. by exists "", t.
    + intros ([|x a] & b & Hab); [by exists b | discriminate].
  - cbn [Strings.Contains]. rewrite orb_true_iff, HasPrefix_spec, IH. split.
    + intros [[t Ht] | (a & b & Hab)].
      * by exists "", t.
      * exists (String d a), b. by rewrite string_app_cons, Hab.
    + intros ([|x a] & b & Hab).
      * left. by exists b.
      * right. exists a, b. rewrite string_app_cons in Hab. congruence.
Qed.

(** ** Regular expressions: the matcher decides the language *)

Section RegexpFacts.

Import Regexp.

Lemma nullable_lang r : nullable r = true ↔ lang r "".
Proof.
  split.
  - induction r as [| | | |r1 IH1 r2 IH2|r1 IH1 r2 IH2|r IH]; simpl; try done.
    + intros _. constructor.
    + intros [H1 H2]%andb_true_iff.
      change "" with ("" +:+ ""). constructor; auto.
    + intros [H|H]%orb_true_iff; [apply lang_Alt_l | apply lang_Alt_r]; auto.
    + intros _. constructor.
  - intros H. remember "" as s eqn:Hs.
    induction H as [| | |r1 r2 s1 s2 _ IH1 _ IH2|r1 r2 s _ IH|r1 r2 s _ IH| |];
      simpl; try done.
    + apply string_app_eq_nil in Hs as [-> ->]. by rewrite IH1, IH2.
    + by rewrite IH.
    + rewrite IH by done. apply orb_true_r.
Qed.

Lemma deriv_sound c r s : lang (deriv c r) s → lang r (String c s).
Proof.
  revert s. induction r as [| |d| |r1 IH1 r2 IH2|r1 IH1 r2 IH2|r IH];
    intros s; simpl.
  - inversion 1.
  - inversion 1.
  - case_decide; subst; inversion 1. constructor.
  - destruct (is_digit c) eqn:Hc; inversion 1. by constructor.
  - destruct (nullable r1) eqn:Hn.
    + inversion 1 as [| | | |? ? ? Hl|? ? ? Hr| |]; subst.
      * inversion Hl; subst. rewrite <-string_app_cons. constructor; auto.
      * change (String c s) with ("" +:+ String c s).
        constructor; [by apply nullable_lang | auto].
    + inversion 1; subst. rewrite <-string_app_cons. constructor; auto.
  - inversion 1; subst; [apply lang_Alt_l | apply lang_Alt_r]; auto.
  - inversion 1; subst. rewrite <-string_app_cons. constructor; auto.
Qed.

Lemma deriv_complete c r s : lang r (String c s) → lang (deriv c r) s.
Proof.
  intros H. remember (String c s) as t eqn:Ht. revert s Ht.
  induction H as [|d|d Hd|r1 r2 s1 s2 H1 IH1 H2 IH2|r1 r2 t H IH|r1 r2 t H IH
                  |r|r s1 s2 H1 IH1 H2 IH2]; intros s Ht; simpl; try done.
  - injection Ht as -> <-. rewrite decide_True by done. constructor.
  - injection Ht as -> <-. rewrite Hd. constructor.
  - destruct s1 as [|c1 s1].
    + rewrite string_app_nil_l in Ht.
      apply nullable_lang in H1 as ->. apply lang_Alt_r. auto.
    + rewrite string_app_cons in Ht. injection Ht as -> <-.
      destruct (nullable r1); [apply lang_Alt_l|]; constructor; auto.
  - apply lang_Alt_l; auto.
  - apply lang_Alt_r; auto.
  - destruct s1 as [|c1 s1].
    + rewrite string_app_nil_l in Ht. apply (IH2 s Ht).
    + rewrite string_app_cons in Ht. injection Ht as -> <-. constructor; auto.
Qed.

Lemma MatchString_lang r s : MatchString r s = true ↔ lang r s.
Proof.
  revert r. induction s as [|c s IH]; intros r; simpl.
  - apply nullable_lang.
  - rewrite IH. split; [apply deriv_sound | apply deriv_complete].
Qed.

Lemma lang_Word w s : lang (Word w) s ↔ s = w.
Proof.
  revert s. induction w as [|c w IH]; intros s; simpl.
  - split; [by inversion 1 | intros ->; constructor].
  - split.
    + inversion 1 as [| | |? ? ? ? Hc Hw| | | |]; subst.
      inversion Hc; subst. apply IH in Hw as ->. done.
    + intros ->. change (String c w) with (String c "" +:+ w).
      constructor; [constructor | by apply IH].
Qed.

Lemma lang_Star_Digit s : lang (Star Digit) s ↔ all_digits s = true.
Proof.
  split.
  - intros H. remember (Star Digit) as r eqn:Hr.
    induction H as [| | | | | | |r s1 s2 H1 _ H2 IH2]; try done.
    injection Hr as ->. inversion H1; subst.
    rewrite string_app_cons, string_app_nil_l. simpl. rewrite IH2 by done. by rewrite andb_true_r.
  - induction s as [|c s IH]; simpl; [constructor|].
    intros [Hc Hs]%andb_true_iff.
    change (String c s) with (String c "" +:+ s).
    constructor; [by constructor | auto].
Qed.

End RegexpFacts.

(** ** The pattern of [guessGistName] and the names of [processFiles] *)

Lemma MatchString_re k : Regexp.MatchString re k = true ↔ syntheticName k.
Proof.
  rewrite MatchString_lang. unfold re, syntheticName, Regexp.Plus. split.
  - inversion 1 as [| | |? ? s1 s2 Hw Hrest| | | |]; subst.
    apply (lang_Word "gistfile") in Hw as ->.
    inversion Hrest as [| | |? ? s3 s4 Hds Htxt| | | |]; subst.
    apply (lang_Word ".txt") in Htxt as ->.
    inversion Hds as [| | |? ? s5 s6 Hd Hs| | | |]; subst.
    inversion Hd as [| |c Hc| | | | |]; subst.
    apply lang_Star_Digit in Hs.
    exists (String c s6). split; [done|]. split; [|done].
    simpl. by rewrite Hc, Hs.
  - intros (ds & Hne & Hds & ->).
    constructor; [by apply lang_Word|].
    constructor; [|by apply lang_Word].
    destruct ds as [|c ds]; [done|]. simpl in Hds.
    apply andb_true_iff in Hds as [Hc Hds].
    change (String c ds) with (String c "" +:+ ds).
    constructor; [by constructor | by apply lang_Star_Digit].
Qed.

Lemma realName_iff k : realName k ↔ ¬ syntheticName k.
Proof.
  unfold realName. rewrite <-MatchString_re.
  destruct (Regexp.MatchString re k); naive_solver.
Qed.

Lemma string_of_uint_digits d :
  Regexp.all_digits (NilEmpty.string_of_uint d) = true.
Proof. induction d; simpl; auto. Qed.

Lemma to_uint_nonnil i : Nat.to_uint i ≠ Nil.
Proof.
  rewrite <-(Unsigned.of_to i) at 1. rewrite Unsigned.to_of.
  apply DecimalFacts.unorm_nonnil.
Qed.

Lemma Sprint_d_digits i : Regexp.all_digits (Fmt.Sprint_d i) = true.
Proof. apply string_of_uint_digits. Qed.

Lemma Sprint_d_nonempty i : Fmt.Sprint_d i ≠ "".
Proof.
  unfold Fmt.Sprint_d. pose proof (to_uint_nonnil i) as Hn.
  destruct (Nat.to_uint i); done.
Qed.

Lemma Sprint_d_inj i j : Fmt.Sprint_d i = Fmt.Sprint_d j → i = j.
Proof.
  unfold Fmt.Sprint_d. intros H. apply Unsigned.to_uint_inj.
  apply (f_equal NilEmpty.uint_of_string) in H.
  rewrite !NilEmpty.usu in H. congruence.
Qed.

Lemma gistfileName_synthetic i : syntheticName (gistfileName i).
Proof.
  exists (Fmt.Sprint_d i).
  split; [apply Sprint_d_nonempty|]. split; [apply Sprint_d_digits|done].
Qed.

Lemma gistfileName_inj i j : gistfileName i = gistfileName j → i = j.
Proof.
  unfold gistfileName. intros H%string_app_inj_l. apply Sprint_d_inj.
  revert H. generalize (Fmt.Sprint_d i) (Fmt.Sprint_d j) (Sprint_d_digits i) (Sprint_d_digits j).
  induction s as [|c s IH]; intros [|c' s'] Hs Hs' Heq; simpl in *.
  - done.
  - rewrite string_app_nil_l, string_app_cons in Heq. injection Heq as <- _. done.
  - rewrite string_app_nil_l, string_app_cons in Heq. injection Heq as -> _. done.
  - rewrite !string_app_cons in Heq. injection Heq as -> Heq.
    apply andb_true_iff in Hs as [_ Hs]. apply andb_true_iff in Hs' as [_ Hs'].
    f_equal. eauto.
Qed.

(** ** [guessGistName] *)

Lemma collectNames_filter keys acc :
  collectNames keys acc = acc ++ filter realName keys.
Proof.
  revert acc. induction keys as [|k keys IH]; intros acc; simpl.
  - by rewrite app_nil_r.
  - unfold realName at 1. destruct (Regexp.MatchString re k) eqn:Hk; simpl.
    + rewrite IH, filter_cons_False; [done|]. unfold realName. by rewrite Hk.
    + rewrite IH, filter_cons_True by done. by rewrite <-app_assoc.
Qed.

Lemma sortStrings_head a x rest :
  sortStrings a = x :: rest → x ∈ a ∧ ∀ y, y ∈ a → (x ≤ y)%string.
Proof.
  intros Hs.
  pose proof (merge_sort_Permutation (≤)%string a) as Hp.
  pose proof (StronglySorted_merge_sort (≤)%string a) as Hsorted.
  unfold sortStrings in Hs. rewrite Hs in Hp, Hsorted.
  split.
  - rewrite <-Hp. left.
  - intros y Hy. rewrite <-Hp in Hy.
    apply StronglySorted_inv in Hsorted as [_ Hall].
    apply elem_of_cons in Hy as [->|Hy]; [done|].
    by eapply Forall_forall in Hall.
Qed.

Lemma guessGistNameIn_cases keys :
  (filter realName keys = [] ∧ guessGistNameIn keys = "") ∨
  (guessGistNameIn keys ∈ filter realName keys ∧
   ∀ k, k ∈ filter realName keys → (guessGistNameIn keys ≤ k)%string).
Proof.
  unfold guessGistNameIn. rewrite collectNames_filter, app_nil_l.
  destruct (filter realName keys) as [|k0 l] eqn:Hf.
  - left. done.
  - right. rewrite decide_True by (simpl; lia).
    destruct (sortStrings (k0 :: l)) as [|x rest] eqn:Hs.
    + pose proof (merge_sort_Permutation (≤)%string (k0 :: l)) as Hp.
      unfold sortStrings in Hs. rewrite Hs in Hp.
      by apply Permutation_nil_cons in Hp.
    + simpl. by apply sortStrings_head in Hs.
Qed.

Lemma guessGistNameIn_order keys1 keys2 :
  keys1 ≡ₚ keys2 → guessGistNameIn keys1 = guessGistNameIn keys2.
Proof.
  intros Hp.
  assert (filter realName keys1 ≡ₚ filter realName keys2) as Hf by by rewrite Hp.
  destruct (guessGistNameIn_cases keys1) as [[H1 ->]|[Hin1 Hmin1]],
           (guessGistNameIn_cases keys2) as [[H2 ->]|[Hin2 Hmin2]].
  - done.
  - rewrite H1 in Hf. rewrite <-Hf in Hin2. by apply elem_of_nil in Hin2.
  - rewrite H2 in Hf. rewrite Hf in Hin1. by apply elem_of_nil in Hin1.
  - apply (anti_symm (≤)%string).
    + apply Hmin1. by rewrite Hf.
    + apply Hmin2. by rewrite <-Hf.
Qed.

Lemma elem_of_rangeOrder (files : gmap string string) keys k :
  rangeOrder files keys → k ∈ keys ↔ k ∈ dom files.
Proof.
  unfold rangeOrder. intros ->. rewrite elem_of_dom, list_elem_of_fmap. split.
  - intros ([k' v] & -> & Hkv). apply elem_of_map_to_list in Hkv. by exists v.
  - intros [v Hv]. exists (k, v). split; [done|]. by apply elem_of_map_to_list.
Qed.

Lemma guessGistNameIn_synthetic keys :
  (∀ k, k ∈ keys → syntheticName k) → guessGistNameIn keys = "".
Proof.
  intros Hall. destruct (guessGistNameIn_cases keys) as [[_ ->]|[Hin _]]; [done|].
  apply list_elem_of_filter in Hin as [Hreal Hin].
  apply realName_iff in Hreal. destruct Hreal. auto.
Qed.

Lemma guessGistNameIn_real keys k :
  k ∈ keys → ¬ syntheticName k →
  guessGistNameIn keys ∈ keys ∧ ¬ syntheticName (guessGistNameIn keys) ∧
  (guessGistNameIn keys ≤ k)%string.
Proof.
  intros Hk Hreal.
  assert (k ∈ filter realName keys) as Hkf.
  { apply list_elem_of_filter. split; [by apply realName_iff | done]. }
  destruct (guessGistNameIn_cases keys) as [[Hnil _]|[Hin Hmin]].
  - rewrite Hnil in Hkf. by apply elem_of_nil in Hkf.
  - split_and!; [| |by apply Hmin].
    + by apply list_elem_of_filter in Hin as [_ ?].
    + apply realName_iff. by apply list_elem_of_filter in Hin as [? _].
Qed.

(** ** [processFiles] *)

Section ProcessFiles.

Context {R : Type} `{!ReadCloser R}.
Variable env : Env.

(** One iteration of the loop, by cases on the token and on the result
    of its read. *)
Ltac loop_step w f :=
  cbn [processFilesFrom]; unfold readAllStdin, readFile;
  destruct (decide (f = "-")) as [->|?];
  [ destruct (ReadAll (In w)) as [[? [?|]] ?] eqn:?
  | destruct (ReadFile env f) as [? [?|]] eqn:? ]; cbn [fst snd].

(** The loop over [l1 ++ l2] is the loop over [l1] followed, when it
    ends without an error, by the loop over [l2]. *)
Lemma processFilesFrom_app l1 l2 i fs w :
  processFilesFrom env i (l1 ++ l2) fs w =
  match processFilesFrom env i l1 fs w with
  | ((fs1, None), w1) => processFilesFrom env (i + length l1) l2 fs1 w1
  | res => res
  end.
Proof.
  revert i fs w. induction l1 as [|f l1 IH]; intros i fs w.
  - simpl. by rewrite Nat.add_0_r.
  - rewrite <-app_comm_cons. loop_step w f; try done.
    + rewrite IH. simpl. by rewrite Nat.add_succ_r.
    + rewrite IH. simpl. by rewrite Nat.add_succ_r.
Qed.

(** The loop writes nothing and only adds to the history. *)
Lemma processFilesFrom_frame l i fs w fs' err w' :
  processFilesFrom env i l fs w = ((fs', err), w') →
  Out w' = Out w ∧ ErrOut w' = ErrOut w ∧
  ∃ evs, history w' = history w ++ evs.
Proof.
  revert i fs w. induction l as [|f l IH]; intros i fs w.
  - simpl. intros [= <- <- <-]. split_and!; [done..|]. exists []. by rewrite app_nil_r.
  - loop_step w f.
    + intros [= <- <- <-]. simpl. split_and!; [done..|]. by eexists.
    + intros (-> & -> & evs & ->)%IH. simpl. split_and!; [done..|].
      rewrite <-!app_assoc. by eexists.
    + intros [= <- <- <-]. simpl. split_and!; [done..|]. by eexists.
    + intros (-> & -> & evs & ->)%IH. simpl. split_and!; [done..|].
      rewrite <-!app_assoc. by eexists.
Qed.

(** Standard input is read once for each ["-"] token that the loop
    reaches, and closed after each read that succeeds. *)
Lemma processFilesFrom_stdin l i fs w fs' err w' evs :
  processFilesFrom env i l fs w = ((fs', err), w') →
  history w' = history w ++ evs →
  stdinReads evs ≤ stdinTokens l ∧ stdinCloses evs ≤ stdinReads evs ∧
  (err = None → stdinReads evs = stdinTokens l ∧ stdinCloses evs = stdinTokens l).
Proof.
  revert i fs w evs. induction l as [|f l IH]; intros i fs w evs.
  - simpl. intros [= <- <- <-] Hh.
    rewrite <-(app_nil_r (history w)) in Hh at 1. apply app_inv_head in Hh as <-.
    unfold stdinReads, stdinCloses, stdinTokens. simpl. lia.
  - unfold stdinTokens. cbn [List.filter]. loop_step w f.
    + intros [= <- <- <-]. simpl. intros <-%app_inv_head.
      rewrite ?bool_decide_true by done.
      unfold stdinReads, stdinCloses. simpl. split_and!; [lia..|done].
    + intros Hrun Hh.
      destruct (processFilesFrom_frame _ _ _ _ _ _ _ Hrun) as (_ & _ & evs' & Hh').
      rewrite Hh' in Hh. simpl in Hh. rewrite <-!app_assoc in Hh.
      apply app_inv_head in Hh as <-.
      destruct (IH _ _ _ _ Hrun Hh') as (Hr & Hc & Hok).
      rewrite ?bool_decide_true by done.
      unfold stdinReads, stdinCloses, stdinTokens in *. simpl.
      split_and!; [lia..|]. intros He. destruct (Hok He). lia.
    + intros [= <- <- <-]. simpl. intros <-%app_inv_head.
      rewrite ?bool_decide_false by done.
      unfold stdinReads, stdinCloses. simpl. split_and!; [lia..|done].
    + intros Hrun Hh.
      destruct (processFilesFrom_frame _ _ _ _ _ _ _ Hrun) as (_ & _ & evs' & Hh').
      rewrite Hh' in Hh. simpl in Hh. rewrite <-!app_assoc in Hh.
      apply app_inv_head in Hh as <-.
      destruct (IH _ _ _ _ Hrun Hh') as (Hr & Hc & Hok).
      rewrite ?bool_decide_false by done.
      unfold stdinReads, stdinCloses, stdinTokens in *. simpl.
      split_and!; [lia..|]. intros He. destruct (Hok He). lia.
Qed.

(** Which reads fail, and the error that a failed read gives. *)
Lemma processFilesFrom_error l i fs w fs' err w' evs :
  processFilesFrom env i l fs w = ((fs', err), w') →
  history w' = history w ++ evs →
  (is_Some err ↔ Exists readFailed evs) ∧
  (∀ f cause, EvReadFile f (Some cause) ∈ evs →
     f ∈ l ∧ f ≠ "-" ∧ (ReadFile env f).2 = Some cause ∧
     err = Some (Errors.Errorf_w ("failed to read file " +:+ f +:+ ": ") cause)) ∧
  (∀ cause, EvReadAll (Some cause) ∈ evs →
     "-" ∈ l ∧ err = Some (Errors.Errorf_w "failed to read from stdin: " cause)).
Proof.
  revert i fs w evs. induction l as [|f l IH]; intros i fs w evs.
  - simpl. intros [= <- <- <-] Hh.
    rewrite <-(app_nil_r (history w)) in Hh at 1. apply app_inv_head in Hh as <-.
    split_and!.
    + split; [by intros [? ?] | by intros ?%Exists_nil].
    + by intros ? ? ?%elem_of_nil.
    + by intros ? ?%elem_of_nil.
  - loop_step w f.
    + intros [= <- <- <-]. simpl. intros <-%app_inv_head. split_and!.
      * split; [intros _; by left | by eexists].
      * by intros ? ? [=]%list_elem_of_singleton.
      * intros ? [= <-]%list_elem_of_singleton. split; [left | done].
    + intros Hrun Hh.
      destruct (processFilesFrom_frame _ _ _ _ _ _ _ Hrun) as (_ & _ & evs' & Hh').
      rewrite Hh' in Hh. simpl in Hh. rewrite <-!app_assoc in Hh.
      apply app_inv_head in Hh as <-.
      destruct (IH _ _ _ _ Hrun Hh') as (Hiff & Hfile & Hstdin). split_and!.
      * rewrite Hiff. simpl. rewrite !Exists_cons. simpl. tauto.
      * intros f cause [[=]|[[=]|Hin]%elem_of_cons]%elem_of_cons.
        destruct (Hfile _ _ Hin) as (? & ? & ? & ?). split_and!; [by right|done..].
      * intros cause [[=]|[[=]|Hin]%elem_of_cons]%elem_of_cons.
        destruct (Hstdin _ Hin) as (? & ?). split; [by left|done].
    + intros [= <- <- <-]. simpl. intros <-%app_inv_head. split_and!.
      * split; [intros _; by left | by eexists].
      * intros ? ? [= <- <-]%list_elem_of_singleton.
        split_and!; [left|done|by rewrite Heqp|done].
      * by intros ? [=]%list_elem_of_singleton.
    + intros Hrun Hh.
      destruct (processFilesFrom_frame _ _ _ _ _ _ _ Hrun) as (_ & _ & evs' & Hh').
      rewrite Hh' in Hh. simpl in Hh. rewrite <-!app_assoc in Hh.
      apply app_inv_head in Hh as <-.
      destruct (IH _ _ _ _ Hrun Hh') as (Hiff & Hfile & Hstdin). split_and!.
      * rewrite Hiff. simpl. rewrite !Exists_cons. simpl. tauto.
      * intros g cause [[=]|Hin]%elem_of_cons.
        destruct (Hfile _ _ Hin) as (? & ? & ? & ?). split_and!; [by right|done..].
      * intros cause [[=]|Hin]%elem_of_cons.
        destruct (Hstdin _ Hin) as (? & ?). split; [by right|done].
Qed.

(** Real files that are all readable: the loop performs the assignments
    in order. *)
Lemma processFilesFrom_real l i fs w :
  "-" ∉ l → (∀ f, f ∈ l → (ReadFile env f).2 = None) →
  ∃ w', processFilesFrom env i l fs w = ((foldl (insertFile env) fs l, None), w') ∧
        In w' = In w ∧ stdinReads (history w') = stdinReads (history w).
Proof.
  revert i fs w. induction l as [|f l IH]; intros i fs w Hdash Hok.
  - by eexists.
  - apply not_elem_of_cons in Hdash as [Hf Hdash].
    cbn [processFilesFrom foldl]. rewrite decide_False by done.
    unfold readFile. pose proof (Hok f ltac:(left)) as Hread.
    destruct (ReadFile env f) as [content err] eqn:Hrf. simpl in Hread. subst err.
    edestruct (IH (S i) (<[Path.Base f:=content]> fs)) as (w' & -> & Hin & Hreads);
      [done | by intros; apply Hok; right |].
    exists w'.
    assert (insertFile env fs f = <[Path.Base f:=content]> fs) as ->
      by (unfold insertFile; by rewrite Hrf).
    split_and!; [done..|].
    rewrite Hreads. unfold stdinReads. simpl.
    rewrite List.filter_app. simpl. by rewrite app_nil_r.
Qed.

Lemma foldl_insertFile_dom l fs :
  dom (foldl (insertFile env) fs l) = dom fs ∪ list_to_set (Path.Base <$> l).
Proof.
  revert fs. induction l as [|f l IH]; intros fs; simpl.
  - by rewrite union_empty_r_L.
  - rewrite IH. unfold insertFile. rewrite dom_insert_L.
    by rewrite (comm_L (∪) {[Path.Base f]}), <-(assoc_L (∪)).
Qed.

Lemma foldl_insertFile_other l fs k :
  (∀ f, f ∈ l → Path.Base f ≠ k) → foldl (insertFile env) fs l !! k = fs !! k.
Proof.
  revert fs. induction l as [|f l IH]; intros fs Hk; simpl; [done|].
  rewrite IH by (intros; apply Hk; by right).
  unfold insertFile. apply lookup_insert_ne. apply Hk. left.
Qed.

(** Last write wins: the value under a basename is the content of the
    last file of the list with that basename. *)
Lemma foldl_insertFile_last l fs n f :
  l !! n = Some f →
  (∀ m g, n < m → l !! m = Some g → Path.Base g ≠ Path.Base f) →
  foldl (insertFile env) fs l !! Path.Base f = Some (ReadFile env f).1.
Proof.
  revert fs n. induction l as [|g l IH]; intros fs n Hn Hlast; [done|].
  destruct n as [|n]; simpl in *.
  - injection Hn as ->. rewrite foldl_insertFile_other.
    + unfold insertFile. apply lookup_insert_eq.
    + intros g [m Hm]%list_elem_of_lookup. apply (Hlast (S m) g); [lia|done].
  - apply (IH _ n); [done|]. intros m h ? Hm. apply (Hlast (S m) h); [lia|done].
Qed.

(** A key keeps its value through the loop when no later token writes
    it: no real file with this basename and no ["-"] at an index with
    this synthetic name. *)
Lemma processFilesFrom_other l i fs w fs' w' k :
  processFilesFrom env i l fs w = ((fs', None), w') →
  (∀ n f, l !! n = Some f → f ≠ "-" → Path.Base f ≠ k) →
  (∀ n, l !! n = Some "-" → gistfileName (i + n) ≠ k) →
  fs' !! k = fs !! k.
Proof.
  revert i fs w. induction l as [|f l IH]; intros i fs w.
  - simpl. by intros [= <- <-].
  - loop_step w f; try done.
    + intros Hrun Hreal Hstdin. rewrite (IH _ _ _ Hrun).
      * apply lookup_insert_ne. specialize (Hstdin 0 eq_refl).
        by rewrite Nat.add_0_r in Hstdin.
      * intros n g Hn. apply (Hreal (S n) g Hn).
      * intros n Hn. specialize (Hstdin (S n) Hn). by rewrite Nat.add_succ_r in Hstdin.
    + intros Hrun Hreal Hstdin. rewrite (IH _ _ _ Hrun).
      * apply lookup_insert_ne. by apply (Hreal 0 f).
      * intros m g Hm. apply (Hreal (S m) g Hm).
      * intros m Hm. specialize (Hstdin (S m) Hm). by rewrite Nat.add_succ_r in Hstdin.
Qed.

(** The entry of a ["-"] token at index [i]: the loop up to [i] ends
    without an error, the read at [i] succeeds, and its content is the
    value under [gistfile{i}.txt] unless a later real file has that
    basename. *)
Lemma processFilesFrom_stdin_entry l fs w' i w :
  processFilesFrom env 0 l ∅ w = ((fs, None), w') →
  l !! i = Some "-" →
  ∃ fs_i w_i content r,
    processFilesFrom env 0 (take i l) ∅ w = ((fs_i, None), w_i) ∧
    ReadAll (In w_i) = ((content, None), r) ∧
    ((∀ j f, i < j → l !! j = Some f → f ≠ "-" → Path.Base f ≠ gistfileName i) →
     fs !! gistfileName i = Some content).
Proof.
  intros Hrun Hi.
  assert (i < length l) as Hlen by by eapply lookup_lt_Some.
  rewrite <-(take_drop_middle l i "-" Hi), processFilesFrom_app in Hrun.
  destruct (processFilesFrom env 0 (take i l) ∅ w) as [[fs_i [e|]] w_i] eqn:Hpre;
    [done|].
  rewrite length_take_le in Hrun by lia. cbn [processFilesFrom] in Hrun.
  rewrite decide_True in Hrun by done. unfold readAllStdin in Hrun.
  destruct (ReadAll (In w_i)) as [[content [e|]] r] eqn:Hread; [done|].
  cbn [fst snd] in Hrun.
  exists fs_i, w_i, content, r. split_and!; [done..|].
  intros Hlater. rewrite (processFilesFrom_other _ _ _ _ _ _ _ Hrun).
  - apply lookup_insert_eq.
  - intros n f Hn. apply (Hlater (S (i + n))); [lia|].
    by rewrite <-Hn, lookup_drop, Nat.add_succ_l.
  - intros n _ Heq%gistfileName_inj. lia.
Qed.

End ProcessFiles.

Section ProcessFilesWhole.

Context {R : Type} `{!ReadCloser R}.
Variable env : Env.

Lemma processFiles_nil w :
  processFiles env [] w = ((None, Some (errorString "no files passed")), w).
Proof. done. Qed.

Lemma processFiles_loop l w :
  l ≠ [] →
  processFiles env l w =
  let '((fs, err), w') := processFilesFrom env 0 l ∅ w in ((Some fs, err), w').
Proof.
  intros Hl. unfold processFiles. rewrite decide_False; [done|].
  by destruct l.
Qed.

Lemma processFiles_inv l w fs err w' :
  processFiles env l w = ((fs, err), w') →
  (l = [] ∧ fs = None ∧ err = Some (errorString "no files passed") ∧ w' = w) ∨
  (l ≠ [] ∧ ∃ fs', fs = Some fs' ∧ processFilesFrom env 0 l ∅ w = ((fs', err), w')).
Proof.
  destruct (decide (l = [])) as [->|Hl].
  - rewrite processFiles_nil. intros [= <- <- <-]. by left.
  - rewrite processFiles_loop by done.
    destruct (processFilesFrom env 0 l ∅ w) as [[fs' err'] w''].
    intros [= <- <- <-]. right. split; [done|]. by exists fs'.
Qed.

Lemma processFiles_frame l w res w' :
  processFiles env l w = (res, w') →
  Out w' = Out w ∧ ErrOut w' = ErrOut w ∧ ∃ evs, history w' = history w ++ evs.
Proof.
  destruct res as [fs err].
  intros [(-> & -> & -> & ->)|(Hl & fs' & -> & Hrun)]%processFiles_inv.
  - split_and!; [done..|]. exists []. by rewrite app_nil_r.
  - by eapply processFilesFrom_frame.
Qed.

End ProcessFilesWhole.

(** ** The reads of a run, token by token *)

Lemma string_app_id (s t : string) : s +:+ t = s → t = "".
Proof.
  induction s as [|c s IH]; [done|]. rewrite string_app_cons. intros [= Heq]. auto.
Qed.

Section ReadsOfARun.

Context {R : Type} `{!ReadCloser R}.
Variable env : Env.

Lemma readErrorAt_0 (r : R) f l :
  readErrorAt env r (f :: l) 0 = tokenReadError env r f.
Proof. done. Qed.

Lemma readErrorAt_S (r : R) f l n :
  readErrorAt env r (f :: l) (S n) = readErrorAt env (useStdin r f) l n.
Proof. done. Qed.

Lemma readErrorAt_take (r : R) l n m :
  m < n → readErrorAt env r (take n l) m = readErrorAt env r l m.
Proof.
  intros Hm. unfold readErrorAt.
  rewrite lookup_take_lt by done. rewrite take_take.
  by replace (m `min` n) with m by lia.
Qed.

(** One iteration of the loop: the read of the token fails and the loop
    ends, or it gives no error and the loop goes on with the new entry
    and the events and the stream of [okEvents] and [useStdin]. *)
Lemma processFilesFrom_step i f l fs (w : World R) :
  match tokenReadError env (In w) f with
  | Some c =>
      ∃ w', processFilesFrom env i (f :: l) fs w =
              ((fs, Some (Errors.Errorf_w (readErrorPrefix f) c)), w') ∧
            history w' =
              history w ++ [if decide (f = "-") then EvReadAll (Some c)
                            else EvReadFile f (Some c)] ∧
            In w' = (if decide (f = "-") then (ReadAll (In w)).2 else In w)
  | None =>
      ∃ content w1,
        processFilesFrom env i (f :: l) fs w =
          processFilesFrom env (S i) l (<[tokenKey i f := content]> fs) w1 ∧
        history w1 = history w ++ okEvents f ∧
        In w1 = useStdin (In w) f
  end.
Proof.
  unfold tokenReadError, readErrorPrefix, okEvents, useStdin, tokenKey.
  cbn [processFilesFrom]. unfold readAllStdin, readFile.
  destruct (decide (f = "-")) as [->|Hf].
  - destruct (ReadAll (In w)) as [[content [c|]] r]; cbn [fst snd].
    + by eexists.
    + eexists content, _. split; [done|]. simpl. by rewrite <-app_assoc.
  - destruct (ReadFile env f) as [content [c|]]; cbn [fst snd].
    + by eexists.
    + by eexists content, _.
Qed.

(** The whole loop: without a failing read it ends without an error,
    with the events and the stream of its tokens in order. *)
Lemma processFilesFrom_all_ok l i fs (w : World R) :
  (∀ n, readErrorAt env (In w) l n = None) →
  ∃ fs' w', processFilesFrom env i l fs w = ((fs', None), w') ∧
    history w' = history w ++ flat_map okEvents l ∧
    In w' = foldl useStdin (In w) l.
Proof.
  revert i fs w. induction l as [|f l IH]; intros i fs w Hok.
  - eexists _, _. split; [done|]. by rewrite app_nil_r.
  - pose proof (processFilesFrom_step i f l fs w) as Hstep.
    pose proof (Hok 0) as H0. rewrite readErrorAt_0 in H0. rewrite H0 in Hstep.
    destruct Hstep as (content & w1 & -> & Hh & Hin).
    destruct (IH (S i) (<[tokenKey i f:=content]> fs) w1) as (fs' & w' & -> & Hh' & Hin').
    { intros n. rewrite Hin. apply (Hok (S n)). }
    exists fs', w'. split; [done|].
    rewrite Hh', Hh, Hin', Hin. simpl. by rewrite <-app_assoc.
Qed.

(** A loop that ends without an error had no failing read. *)
Lemma processFilesFrom_ok_inv l i fs (w : World R) fs' w' :
  processFilesFrom env i l fs w = ((fs', None), w') →
  ∀ n, readErrorAt env (In w) l n = None.
Proof.
  revert i fs w. induction l as [|f l IH]; intros i fs w Hrun n.
  - unfold readErrorAt. by rewrite lookup_nil.
  - pose proof (processFilesFrom_step i f l fs w) as Hstep.
    destruct (tokenReadError env (In w) f) as [c|] eqn:Hread.
    + destruct Hstep as (w1 & Hfail & _). by rewrite Hfail in Hrun.
    + destruct Hstep as (content & w1 & Hnext & _ & Hin).
      rewrite Hnext in Hrun. destruct n as [|n]; [by rewrite readErrorAt_0|].
      rewrite readErrorAt_S, <-Hin. by eapply IH.
Qed.

(** The first failing read ends the loop with its error; the calls made
    are those of the tokens before it and the failed read, and standard
    input was not closed after a failed read. *)
Lemma processFilesFrom_first_error l i fs (w : World R) n f c :
  l !! n = Some f →
  (∀ m, m < n → readErrorAt env (In w) l m = None) →
  readErrorAt env (In w) l n = Some c →
  ∃ fs' w', processFilesFrom env i l fs w =
              ((fs', Some (Errors.Errorf_w (readErrorPrefix f) c)), w') ∧
    history w' =
      history w ++ flat_map okEvents (take n l) ++
        [if decide (f = "-") then EvReadAll (Some c) else EvReadFile f (Some c)] ∧
    In w' = (if decide (f = "-") then (ReadAll (foldl useStdin (In w) (take n l))).2
             else foldl useStdin (In w) (take n l)).
Proof.
  intros Hn Hbefore Hfail.
  assert (n < length l) as Hlen by by eapply lookup_lt_Some.
  destruct (processFilesFrom_all_ok (take n l) i fs w) as (fs_n & w_n & Hpre & Hh & Hin).
  { intros m. destruct (decide (m < n)) as [Hm|Hm].
    - rewrite readErrorAt_take by done. by apply Hbefore.
    - unfold readErrorAt. rewrite lookup_take_ge by lia. done. }
  pose proof (processFilesFrom_app env (take n l) (f :: drop (S n) l) i fs w) as Happ.
  rewrite (take_drop_middle l n f Hn), Hpre in Happ.
  pose proof (processFilesFrom_step (i + length (take n l)) f (drop (S n) l) fs_n w_n)
    as Hstep.
  unfold readErrorAt in Hfail. rewrite Hn, <-Hin in Hfail. rewrite Hfail in Hstep.
  destruct Hstep as (w' & Hrun & Hh' & Hin').
  exists fs_n, w'. split; [by rewrite Happ|]. rewrite Hh', Hh, Hin', Hin.
  by rewrite <-app_assoc.
Qed.

(** Every index is before the first failing read, or there is one. *)
Lemma first_failing_read (r : R) l :
  (∀ n, readErrorAt env r l n = None) ∨
  ∃ n f c, l !! n = Some f ∧
    (∀ m, m < n → readErrorAt env r l m = None) ∧
    readErrorAt env r l n = Some c.
Proof.
  revert r. induction l as [|f l IH]; intros r.
  - left. intros n. unfold readErrorAt. by rewrite lookup_nil.
  - destruct (tokenReadError env r f) as [c|] eqn:Hread.
    + right. exists 0, f, c. split_and!; [done|intros; lia|by rewrite readErrorAt_0].
    + destruct (IH (useStdin r f)) as [Hok|(n & g & c & Hn & Hbefore & Hfail)].
      * left. intros [|n]; [by rewrite readErrorAt_0|by rewrite readErrorAt_S].
      * right. exists (S n), g, c. split_and!; [done| |by rewrite readErrorAt_S].
        intros [|m] Hm; [by rewrite readErrorAt_0|].
        rewrite readErrorAt_S. apply Hbefore. lia.
Qed.

(** Without a ["-"] token the reads are those of the file system. *)
Lemma readErrorAt_files (r : R) l n f :
  "-" ∉ l → l !! n = Some f → readErrorAt env r l n = (ReadFile env f).2.
Proof.
  intros Hdash Hn. unfold readErrorAt, tokenReadError. rewrite Hn.
  rewrite decide_False; [done|]. intros ->. apply Hdash.
  by eapply list_elem_of_lookup_2.
Qed.

End ReadsOfARun.

(** In the calls of a run every read of standard input that gave no
    error is followed at once by the close, a close comes only there, and
    a read that failed is the last call. *)
Lemma okEvents_order (l : list string) (tail : list event) :
  (tail = [] ∨ ∃ ev, tail = [ev] ∧ readFailed ev) →
  (∀ i, (flat_map okEvents l ++ tail) !! i = Some (EvReadAll None) →
        (flat_map okEvents l ++ tail) !! S i = Some EvClose) ∧
  (∀ i, (flat_map okEvents l ++ tail) !! i = Some EvClose →
        ∃ j, i = S j ∧ (flat_map okEvents l ++ tail) !! j = Some (EvReadAll None)) ∧
  (∀ i c, (flat_map okEvents l ++ tail) !! i = Some (EvReadAll (Some c)) →
        S i = length (flat_map okEvents l ++ tail)).
Proof.
  intros Htail. induction l as [|f l (IH1 & IH2 & IH3)].
  - simpl. destruct Htail as [->|(ev & -> & Hev)].
    + split_and!; intros; by rewrite lookup_nil in *.
    + split_and!.
      * intros [|i] Hi; [|done]. injection Hi as ->. done.
      * intros [|i] Hi; [|done]. injection Hi as ->. done.
      * intros [|i] c Hi; [done|done].
  - cbn [flat_map].
    assert (okEvents f = [EvReadAll None; EvClose] ∨
            ∃ g, okEvents f = [EvReadFile g None]) as [->|[g ->]].
    { unfold okEvents. case_decide; [by left|right; by eexists]. }
    + split_and!.
      * intros [|[|i]] Hi; [done|done|]. by apply (IH1 i).
      * intros [|[|i]] Hi; [done|by exists 0|].
        destruct (IH2 i Hi) as (j & -> & Hj). by exists (S (S j)).
      * intros [|[|i]] c Hi; [done|done|]. simpl. f_equal. f_equal. by apply (IH3 i c).
    + split_and!.
      * intros [|i] Hi; [done|]. by apply (IH1 i).
      * intros [|i] Hi; [done|].
        destruct (IH2 i Hi) as (j & -> & Hj). by exists (S j).
      * intros [|i] c Hi; [done|]. simpl. f_equal. by apply (IH3 i c).
Qed.

(** * Part III: the claims *)

(** C2.  On every file set, and on every order in which the map delivers
    its keys, [guessGistName] returns the empty string when every key has
    the form [gistfileN.txt] ([N] a decimal numeral), and otherwise a key
    that is not of that form and is below every such key in the byte-wise
    lexicographic order.  On the keys [gistfile0.txt], [b.py], [a.py] it
    returns [a.py]; on [gistfile0.txt], [gistfile1.txt] it returns the
    empty string. *)
Theorem guessGistName_smallest_real_name
    (files : gmap string string) (keys : list string) :
  rangeOrder files keys →
  ((∀ k, k ∈ dom files → syntheticName k) → guessGistNameIn keys = "") ∧
  (∀ k, k ∈ dom files → ¬ syntheticName k →
     guessGistNameIn keys ∈ dom files ∧
     ¬ syntheticName (guessGistNameIn keys) ∧
     (guessGistNameIn keys ≤ k)%string) ∧
  (dom files = {["gistfile0.txt"; "b.py"; "a.py"]} → guessGistNameIn keys = "a.py") ∧
  (dom files = {["gistfile0.txt"; "gistfile1.txt"]} → guessGistNameIn keys = "").
Proof.
  intros Hord.
  assert (∀ k, k ∈ keys ↔ k ∈ dom files) as Hkeys
    by (intros; by apply elem_of_rangeOrder).
  assert (∀ k, k ∈ dom files → ¬ syntheticName k →
     guessGistNameIn keys ∈ dom files ∧
     ¬ syntheticName (guessGistNameIn keys) ∧
     (guessGistNameIn keys ≤ k)%string) as Hreal.
  { intros k Hk%Hkeys Hsyn.
    destruct (guessGistNameIn_real keys k Hk Hsyn) as (? & ? & ?).
    split_and!; [by apply Hkeys|done..]. }
  assert (syntheticName "gistfile0.txt") as H0
    by (apply MatchString_re; vm_compute; reflexivity).
  assert (syntheticName "gistfile1.txt") as H1
    by (apply MatchString_re; vm_compute; reflexivity).
  split_and!; [|done| |].
  - intros Hall. apply guessGistNameIn_synthetic. intros k ?%Hkeys. auto.
  - intros Hdom. destruct (Hreal "a.py") as (Hin & Hns & Hle).
    + rewrite Hdom. set_solver.
    + apply realName_iff. vm_compute. reflexivity.
    + rewrite Hdom in Hin.
      apply elem_of_union in Hin as [[Hin|Hin]%elem_of_union|Hin];
        apply elem_of_singleton in Hin.
      * by rewrite Hin in Hns.
      * by rewrite Hin in Hle.
      * done.
  - intros Hdom. apply guessGistNameIn_synthetic. intros k Hk%Hkeys.
    rewrite Hdom in Hk.
    apply elem_of_union in Hk as [Hk|Hk]; apply elem_of_singleton in Hk; by subst.
Qed.

Lemma guessGistName_smallest_real_name_witness :
  guessGistNameIn (map_to_list Examples.filesABC).*1 = "a.py".
Proof.
  apply (proj1 (proj2 (proj2
    (guessGistName_smallest_real_name Examples.filesABC
       (map_to_list Examples.filesABC).*1 (reflexivity _))))).
  vm_compute. reflexivity.
Defined.

(** C9.  [guessGistName] is a function of the file set alone: every
    order of the keys gives the same result, and the result is the empty
    string or a key of the file set. *)
Theorem guessGistName_pure_and_member
    (files : gmap string string) (keys : list string) :
  rangeOrder files keys →
  guessGistNameIn keys = guessGistName files ∧
  (guessGistName files = "" ∨ guessGistName files ∈ dom files).
Proof.
  intros Hord. split.
  - by apply guessGistNameIn_order.
  - unfold guessGistName.
    destruct (guessGistNameIn_cases (map_to_list files).*1) as [[_ ->]|[Hin _]];
      [by left|right].
    apply list_elem_of_filter in Hin as [_ Hin].
    by apply (elem_of_rangeOrder files (map_to_list files).*1 _ (reflexivity _)).
Qed.

Lemma guessGistName_pure_and_member_witness :
  guessGistNameIn (reverse (map_to_list Examples.filesABC).*1)
  = guessGistName Examples.filesABC ∧
  (guessGistName Examples.filesABC = "" ∨
   guessGistName Examples.filesABC ∈ dom Examples.filesABC).
Proof.
  apply (guessGistName_pure_and_member Examples.filesABC).
  unfold rangeOrder. apply reverse_Permutation.
Defined.

Section CollectorClaims.

Context {R : Type} `{!ReadCloser R}.
Variable env : Env.

(** C3.  For a non-empty list of real files (no ["-"] token) that are
    all read without error, [processFiles] returns no error and a map
    whose keys are exactly the basenames of the paths; the value under a
    basename is the exact content of the last file of the list with that
    basename (last write wins). *)
Theorem processFiles_real_files (l : list string) (w : World R) :
  l ≠ [] → "-" ∉ l → (∀ f, f ∈ l → (ReadFile env f).2 = None) →
  ∃ fs w',
    processFiles env l w = ((Some fs, None), w') ∧
    dom fs = list_to_set (Path.Base <$> l) ∧
    ∀ n f, l !! n = Some f →
      (∀ m g, n < m → l !! m = Some g → Path.Base g ≠ Path.Base f) →
      fs !! Path.Base f = Some (ReadFile env f).1.
Proof.
  intros Hl Hdash Hok.
  destruct (processFilesFrom_real env l 0 ∅ w Hdash Hok) as (w' & Hrun & _).
  exists (foldl (insertFile env) ∅ l), w'. split_and!.
  - rewrite processFiles_loop by done. by rewrite Hrun.
  - by rewrite foldl_insertFile_dom, dom_empty_L, union_empty_l_L.
  - intros n f Hn Hlast. by eapply foldl_insertFile_last.
Qed.

(** C4, amended.  On a run of [processFiles] that ends without an error,
    a ["-"] token at index [i] leaves, under the key [gistfile{i}.txt],
    the content that the read of standard input at that token returned,
    unless a later real file of the list has the basename
    [gistfile{i}.txt].  With an empty list of file names [createRun]
    runs as with the list [["-"]], and for that list the map has the
    single key [gistfile0.txt]. *)
Theorem processFiles_stdin_entry (l : list string) (w : World R) :
  (∀ fs w' i,
     processFiles env l w = ((Some fs, None), w') →
     l !! i = Some "-" →
     (∀ j f, i < j → l !! j = Some f → f ≠ "-" → Path.Base f ≠ gistfileName i) →
     ∃ fs_i w_i content r,
       processFilesFrom env 0 (take i l) ∅ w = ((fs_i, None), w_i) ∧
       ReadAll (In w_i) = ((content, None), r) ∧
       fs !! gistfileName i = Some content) ∧
  (∀ opts, Filenames opts = [] →
     createRun env opts w =
     createRun env {| Description := Description opts; Public := Public opts;
                      Filenames := ["-"] |} w) ∧
  (∀ content r, ReadAll (In w) = ((content, None), r) →
     ∃ w', processFiles env ["-"] w = ((Some {["gistfile0.txt" := content]}, None), w')).
Proof.
  split_and!.
  - intros fs w' i [(-> & _)|(Hl & fs' & [= <-] & Hrun)]%processFiles_inv Hi Hlater;
      [done|].
    destruct (processFilesFrom_stdin_entry env _ _ _ _ _ Hrun Hi)
      as (fs_i & w_i & content & r & Hpre & Hread & Hentry).
    exists fs_i, w_i, content, r. auto.
  - intros opts Hnil. unfold createRun. cbn [Filenames Description Public].
    by rewrite Hnil.
  - intros content r Hread. unfold processFiles. cbn [length processFilesFrom].
    rewrite !decide_False by done. rewrite decide_True by done.
    unfold readAllStdin. rewrite Hread. cbn [fst snd]. by eexists.
Qed.

(** C5.  [processFiles] returns an error exactly when the list is empty
    or a read fails: it returns none exactly when the list is not empty
    and the read of every token, on the file system and on standard input
    as the tokens before it left it, gives no error.  The first read that
    fails decides the error; for a file [f] with cause [cause] it is
    [failed to read file f: cause], whose [Unwrap] is [cause] and whose
    text contains [f].  For a list without ["-"] an error is returned
    exactly when the list is empty or the file system fails to read one
    of its files.  The reads that the history records are these reads. *)
Theorem processFiles_error_cases (l : list string) (w : World R)
    (fs : option (gmap string string)) (err : option error) (w' : World R) :
  processFiles env l w = ((fs, err), w') →
  (err = None ↔ l ≠ [] ∧ ∀ n, readErrorAt env (In w) l n = None) ∧
  (l = [] → err = Some (errorString "no files passed")) ∧
  (∀ n f cause, l !! n = Some f →
     (∀ m, m < n → readErrorAt env (In w) l m = None) →
     readErrorAt env (In w) l n = Some cause →
     err = Some (Errors.Errorf_w (readErrorPrefix f) cause)) ∧
  (∀ n f cause, l !! n = Some f → f ≠ "-" →
     (∀ m, m < n → readErrorAt env (In w) l m = None) →
     (ReadFile env f).2 = Some cause →
     ∃ e, err = Some e ∧
          Errors.Error e = "failed to read file " +:+ f +:+ ": " +:+ Errors.Error cause ∧
          Errors.Unwrap e = Some cause ∧
          hasSubstring (Errors.Error e) f) ∧
  ("-" ∉ l → (is_Some err ↔ l = [] ∨ ∃ f, f ∈ l ∧ is_Some (ReadFile env f).2)) ∧
  ∃ evs, history w' = history w ++ evs ∧
    (is_Some err ↔ l = [] ∨ Exists readFailed evs) ∧
    (∀ f cause, EvReadFile f (Some cause) ∈ evs →
       f ∈ l ∧ (ReadFile env f).2 = Some cause ∧
       ∃ e, err = Some e ∧
            Errors.Error e = "failed to read file " +:+ f +:+ ": " +:+ Errors.Error cause ∧
            Errors.Unwrap e = Some cause ∧
            hasSubstring (Errors.Error e) f).
Proof.
  intros [(-> & -> & -> & ->)|(Hl & fs' & -> & Hrun)]%processFiles_inv.
  - split_and!; [|done|by intros ? ? ? [=]|by intros ? ? ? [=]| |].
    + split; [done|by intros [? _]].
    + intros _. split; [by left|by eexists].
    + exists []. rewrite app_nil_r. split_and!; [done| |].
      * split; [by left | by eexists].
      * by intros ? ? ?%elem_of_nil.
  - assert (∀ n f cause, l !! n = Some f →
       (∀ m, m < n → readErrorAt env (In w) l m = None) →
       readErrorAt env (In w) l n = Some cause →
       err = Some (Errors.Errorf_w (readErrorPrefix f) cause)) as Hfirst.
    { intros n f cause Hn Hbefore Hfail.
      destruct (processFilesFrom_first_error env l 0 ∅ w n f cause Hn Hbefore Hfail)
        as (fs'' & w'' & Hrun' & _).
      rewrite Hrun' in Hrun. by injection Hrun as _ <- _. }
    assert (err = None ↔ ∀ n, readErrorAt env (In w) l n = None) as Hnone.
    { split.
      - intros ->. by eapply processFilesFrom_ok_inv.
      - intros Hok.
        destruct (processFilesFrom_all_ok env l 0 ∅ w Hok) as (fs'' & w'' & Hrun' & _).
        rewrite Hrun' in Hrun. by injection Hrun as _ <- _. }
    split_and!; [|done|done| | |].
    + rewrite Hnone. split; [done|by intros [_ ?]].
    + intros n f cause Hn Hf Hbefore Hread.
      rewrite (Hfirst n f cause Hn Hbefore).
      * unfold readErrorPrefix. rewrite decide_False by done.
        eexists. split_and!; [done| |done|].
        -- simpl. by rewrite <-!string_app_assoc.
        -- exists "failed to read file ", (": " +:+ Errors.Error cause).
           simpl. by rewrite <-!string_app_assoc.
      * unfold readErrorAt, tokenReadError. rewrite Hn. by rewrite decide_False.
    + intros Hdash. split.
      * intros Herr. right.
        destruct (first_failing_read env (In w) l) as [Hok|(n & f & c & Hn & _ & Hfail)].
        -- apply Hnone in Hok. rewrite Hok in Herr. by destruct Herr.
        -- exists f. split; [by eapply list_elem_of_lookup_2|].
           rewrite <-(readErrorAt_files env (In w) l n f Hdash Hn). by rewrite Hfail.
      * intros [?|(f & [n Hn]%list_elem_of_lookup & Hfail)]; [done|].
        destruct err as [e|]; [by eexists|].
        assert (readErrorAt env (In w) l n = None) as Hok by by apply Hnone.
        rewrite (readErrorAt_files env (In w) l n f Hdash Hn) in Hok.
        rewrite Hok in Hfail. by destruct Hfail.
    + destruct (processFilesFrom_frame env _ _ _ _ _ _ _ Hrun) as (_ & _ & evs & Hh).
      destruct (processFilesFrom_error env _ _ _ _ _ _ _ _ Hrun Hh)
        as (Hiff & Hfile & _).
      exists evs. split_and!; [done| |].
      * rewrite Hiff. split; [by right | by intros [?|?]].
      * intros f cause Hin. destruct (Hfile f cause Hin) as (? & ? & ? & ->).
        split_and!; [done..|]. eexists. split_and!; [done| |done|].
        -- simpl. by rewrite <-!string_app_assoc.
        -- exists "failed to read file ", (": " +:+ Errors.Error cause).
           simpl. by rewrite <-!string_app_assoc.
Qed.

(** C8, amended.  [processFiles] reads standard input once for each
    ["-"] token that it reaches and closes it after each read that
    succeeds: the reads are at most as many as the ["-"] tokens of the
    list, the closes at most as many as the reads, and both are exactly as
    many as the ["-"] tokens when no error is returned.  For a list with
    at most one ["-"] token, standard input is read and closed at most
    once.  The calls come in the order of the tokens: a read of standard
    input that gives no error is followed at once by the close, a close
    comes only there, and a read that fails is the last call and is not
    followed by a close; the stream is left as these calls leave it. *)
Theorem processFiles_stdin_reads (l : list string) (w : World R)
    (res : option (gmap string string) * option error) (w' : World R) :
  processFiles env l w = (res, w') →
  ∃ evs, history w' = history w ++ evs ∧
    stdinReads evs ≤ stdinTokens l ∧
    stdinCloses evs ≤ stdinReads evs ∧
    (res.2 = None → stdinReads evs = stdinTokens l ∧ stdinCloses evs = stdinTokens l) ∧
    (stdinTokens l ≤ 1 → stdinReads evs ≤ 1 ∧ stdinCloses evs ≤ 1) ∧
    (res.2 = None →
       evs = flat_map okEvents l ∧ In w' = foldl useStdin (In w) l) ∧
    (is_Some res.2 → l ≠ [] →
       ∃ n f c, l !! n = Some f ∧ readErrorAt env (In w) l n = Some c ∧
         evs = flat_map okEvents (take n l) ++
               [if decide (f = "-") then EvReadAll (Some c) else EvReadFile f (Some c)] ∧
         In w' = (if decide (f = "-")
                  then (ReadAll (foldl useStdin (In w) (take n l))).2
                  else foldl useStdin (In w) (take n l))) ∧
    (l = [] → evs = [] ∧ In w' = In w) ∧
    (∀ i, evs !! i = Some (EvReadAll None) → evs !! S i = Some EvClose) ∧
    (∀ i, evs !! i = Some EvClose → ∃ j, i = S j ∧ evs !! j = Some (EvReadAll None)) ∧
    (∀ i c, evs !! i = Some (EvReadAll (Some c)) → S i = length evs).
Proof.
  destruct res as [fs err].
  intros [(-> & -> & -> & ->)|(Hl & fs' & -> & Hrun)]%processFiles_inv.
  - exists []. rewrite app_nil_r.
    split_and!; try done; try (by intros [? [=]]);
      try (intros; by rewrite lookup_nil in * ).
  - cbn [snd].
    destruct (first_failing_read env (In w) l) as [Hok|(n & f & c & Hn & Hbefore & Hfail)].
    + destruct (processFilesFrom_all_ok env l 0 ∅ w Hok) as (fs'' & w'' & Hrun' & Hh & Hin).
      rewrite Hrun' in Hrun. injection Hrun as <- <- <-.
      destruct (processFilesFrom_stdin env _ _ _ _ _ _ _ _ Hrun' Hh) as (Hr & Hc & Hcount).
      destruct (okEvents_order l [] ltac:(by left)) as (Ho1 & Ho2 & Ho3).
      rewrite app_nil_r in Ho1, Ho2, Ho3.
      exists (flat_map okEvents l).
      split_and!; [done|done|done|done|lia|done|by intros [? [=]]|done|done|done|done].
    + destruct (processFilesFrom_first_error env l 0 ∅ w n f c Hn Hbefore Hfail)
        as (fs'' & w'' & Hrun' & Hh & Hin).
      rewrite Hrun' in Hrun. injection Hrun as <- <- <-.
      rewrite app_assoc in Hh. rewrite <-app_assoc in Hh.
      destruct (processFilesFrom_stdin env _ _ _ _ _ _ _ _ Hrun' Hh) as (Hr & Hc & Hcount).
      destruct (okEvents_order (take n l)
                  [if decide (f = "-") then EvReadAll (Some c) else EvReadFile f (Some c)])
        as (Ho1 & Ho2 & Ho3).
      { right. eexists. split; [done|]. by case_decide. }
      eexists. split; [done|].
      split_and!; [done|done|done|lia|done| |done|done|done|done].
      intros _ _. by exists n, f, c.
Qed.

(** C10.  Real files whose basenames have the form [gistfileN.txt] are
    left out of name guessing like the entries of standard input: such a
    basename is a key of the collected map and is never the guessed name,
    and when every file of the list has such a basename the guessed name
    is empty on every order of the keys, although standard input was not
    read. *)
Theorem synthetic_basenames_not_guessed (l : list string) (w : World R) :
  l ≠ [] → "-" ∉ l → (∀ f, f ∈ l → (ReadFile env f).2 = None) →
  ∃ fs w',
    processFiles env l w = ((Some fs, None), w') ∧
    stdinReads (history w') = stdinReads (history w) ∧
    (∀ f, f ∈ l → syntheticName (Path.Base f) →
       Path.Base f ∈ dom fs ∧ guessGistName fs ≠ Path.Base f) ∧
    ((∀ f, f ∈ l → syntheticName (Path.Base f)) →
       guessGistName fs = "" ∧
       ∀ keys, rangeOrder fs keys → guessGistNameIn keys = "").
Proof.
  intros Hl Hdash Hok.
  destruct (processFilesFrom_real env l 0 ∅ w Hdash Hok) as (w' & Hrun & _ & Hreads).
  exists (foldl (insertFile env) ∅ l), w'.
  assert (dom (foldl (insertFile env) ∅ l) = list_to_set (Path.Base <$> l)) as Hdom
    by by rewrite foldl_insertFile_dom, dom_empty_L, union_empty_l_L.
  split_and!; [|done| |].
  - rewrite processFiles_loop by done. by rewrite Hrun.
  - intros f Hf Hsyn. split.
    + rewrite Hdom. apply elem_of_list_to_set, list_elem_of_fmap. by exists f.
    + unfold guessGistName.
      destruct (guessGistNameIn_cases (map_to_list (foldl (insertFile env) ∅ l)).*1)
        as [[_ ->]|[Hin _]].
      * intros Heq. rewrite <-Heq in Hsyn. apply MatchString_re in Hsyn.
        vm_compute in Hsyn. discriminate.
      * apply list_elem_of_filter in Hin as [Hreal%realName_iff _].
        intros Heq. by rewrite Heq in Hreal.
  - intros Hsyn.
    assert (∀ keys, rangeOrder (foldl (insertFile env) ∅ l) keys →
                    guessGistNameIn keys = "") as Hall.
    { intros keys Hord. apply guessGistNameIn_synthetic. intros k Hk.
      apply (elem_of_rangeOrder _ _ _ Hord) in Hk. rewrite Hdom in Hk.
      apply elem_of_list_to_set, list_elem_of_fmap in Hk as (f & -> & Hf). auto. }
    split; [|done]. apply Hall. unfold rangeOrder. reflexivity.
Qed.

End CollectorClaims.

(** ** [createRun] *)

Lemma scope_test (scopes : string) :
  bool_decide (scopes ≠ "") && negb (Strings.Contains scopes "gist") = true ↔
  scopes ≠ "" ∧ ¬ hasSubstring scopes "gist".
Proof.
  unfold hasSubstring. rewrite <-Contains_spec, andb_true_iff, bool_decide_eq_true.
  destruct (Strings.Contains scopes "gist"); simpl; intuition congruence.
Qed.

Section RunClaims.

Context {R : Type} `{!ReadCloser R}.
Variable env : Env.

Lemma createRun_collect_failed opts (w : World R) fs e w1 :
  processFiles env (fileArgsOf opts) w = ((fs, Some e), w1) →
  createRun env opts w =
  (Some (Errors.Errorf_w "failed to collect files for posting: " e), w1).
Proof. unfold createRun, fileArgsOf. by intros ->. Qed.

(** After a collection without error, the progress line is written and
    the rest of the run depends on the client and on the remote call. *)
Lemma createRun_collected opts (w : World R) fs w1 :
  processFiles env (fileArgsOf opts) w = ((fs, None), w1) →
  createRun env opts w =
  let files := default ∅ fs in
  let w2 := writeErrOut (progressLine env files) w1 in
  match HttpClient env with
  | inr err => (Some err, w2)
  | inl client =>
      match apiCreate env client (OverridableDefault env)
              (Description opts) (Public opts) files with
      | inr err =>
          match Errors.As_HTTPError err with
          | Some h =>
              if bool_decide (OAuthScopes h ≠ "")
                 && negb (Strings.Contains (OAuthScopes h) "gist")
              then (Some (errorString scopeMessage), w2)
              else (Some (publishError env err), w2)
          | None => (Some (publishError env err), w2)
          end
      | inl gist =>
          (None, writeOut (HTMLURL gist +:+ Strings.LF)
                   (writeErrOut (completionLine env files) w2))
      end
  end.
Proof.
  unfold createRun, fileArgsOf, progressLine, completionLine, publishError.
  intros ->. cbn zeta.
  by destruct (messages (guessGistName (default ∅ fs)) (size (default ∅ fs))).
Qed.

(** A failed remote call: which error is returned. *)
Lemma createRun_publish_failed opts (w : World R) fs w1 client e :
  processFiles env (fileArgsOf opts) w = ((fs, None), w1) →
  HttpClient env = inl client →
  apiCreate env client (OverridableDefault env) (Description opts) (Public opts)
    (default ∅ fs) = inr e →
  let w2 := writeErrOut (progressLine env (default ∅ fs)) w1 in
  (insufficientScope e ∧ createRun env opts w = (Some (errorString scopeMessage), w2)) ∨
  (¬ insufficientScope e ∧ createRun env opts w = (Some (publishError env e), w2)).
Proof.
  intros Hcollect Hclient Hapi.
  rewrite (createRun_collected _ _ _ _ Hcollect). cbn zeta. rewrite Hclient, Hapi.
  unfold insufficientScope.
  destruct (Errors.As_HTTPError e) as [h|] eqn:Has.
  - destruct (bool_decide _ && _) eqn:Htest.
    + apply scope_test in Htest. left. split; [by exists h | done].
    + right. split; [|done]. intros (h' & [= <-] & Hs).
      apply scope_test in Hs. congruence.
  - right. split; [|done]. by intros (h' & [=] & _).
Qed.

End RunClaims.

Section OrchestrationClaims.

Context {R : Type} `{!ReadCloser R}.
Variable env : Env.

(** C1, amended.  On a successful run whose collected file set has two
    or more entries and no guessable name, [createRun] writes the generic
    progress line [Creating gist...] and the completion line
    [Created gist] to the status stream, and exactly one line, the URL of
    the created gist, to the primary output stream. *)
Theorem createRun_no_name_progress (opts : CreateOptions) (w w1 : World R)
    (files : gmap string string) (client : Client) (gist : Gist) :
  processFiles env (fileArgsOf opts) w = ((Some files, None), w1) →
  2 ≤ size files →
  guessGistName files = "" →
  HttpClient env = inl client →
  apiCreate env client (OverridableDefault env) (Description opts) (Public opts)
    files = inl gist →
  ∃ w', createRun env opts w = (None, w') ∧
    ErrOut w' =
      (ErrOut w +:+ (Gray env "-" +:+ " " +:+ "Creating gist..." +:+ Strings.LF))
      +:+ (Green env "???" +:+ " " +:+ "Created gist" +:+ Strings.LF) ∧
    Out w' = Out w +:+ (HTMLURL gist +:+ Strings.LF).
Proof.
  intros Hcollect Hsize Hname Hclient Hapi.
  rewrite (createRun_collected _ _ _ _ _ Hcollect). cbn zeta.
  rewrite Hclient. change (default ∅ (Some files)) with files. rewrite Hapi.
  destruct (processFiles_frame _ _ _ _ _ Hcollect) as (HOut & HErr & _).
  eexists. split; [done|].
  unfold progressLine, completionLine. rewrite Hname. cbn. by rewrite HOut, HErr.
Qed.

(** C6, amended.  When the remote call fails, [createRun] returns the
    re-authentication message exactly when the chain of the error holds
    an [api.HTTPError] whose scope field is not empty and does not
    contain [gist]; every other failure of the remote call is returned
    wrapped as [X Failed to create gist: ...].  The message tells the
    user to re-authenticate. *)
Theorem createRun_publish_failure (opts : CreateOptions) (w w1 : World R)
    (files : gmap string string) (client : Client) (e : error) :
  processFiles env (fileArgsOf opts) w = ((Some files, None), w1) →
  HttpClient env = inl client →
  apiCreate env client (OverridableDefault env) (Description opts) (Public opts)
    files = inr e →
  ((createRun env opts w).1 = Some (errorString scopeMessage) ↔ insufficientScope e) ∧
  ((createRun env opts w).1 = Some (publishError env e) ↔ ¬ insufficientScope e) ∧
  Errors.Unwrap (publishError env e) = Some e ∧
  hasSubstring scopeMessage "Please re-authenticate".
Proof.
  intros Hcollect Hclient Hapi.
  assert (hasSubstring scopeMessage "Please re-authenticate") as Hmsg
    by (apply Contains_spec; vm_compute; reflexivity).
  destruct (createRun_publish_failed _ _ _ _ _ _ _ Hcollect Hclient Hapi)
    as [[Hyes ->]|[Hno ->]]; cbn [fst]; (split_and!; [| |done..]).
  - done.
  - split; [done|]. by intros [].
  - split; [done|]. by intros ?.
  - done.
Qed.

(** C7.  [createRun] returns no error exactly when collection, client
    acquisition and the remote call all succeed; then the status stream
    receives the progress and the completion line of the collected files,
    and the primary output stream exactly one line, the URL of the gist.
    When collection fails nothing is written at all; when the client
    factory or the remote call fails the status stream has received the
    progress line of the collected files and nothing else, and nothing is
    written to the primary output stream. *)
Theorem createRun_primary_output (opts : CreateOptions) (w : World R)
    (err : option error) (w' : World R) :
  createRun env opts w = (err, w') →
  (err = None ↔
   ∃ files w1 client gist,
     processFiles env (fileArgsOf opts) w = ((Some files, None), w1) ∧
     HttpClient env = inl client ∧
     apiCreate env client (OverridableDefault env) (Description opts)
       (Public opts) files = inl gist) ∧
  (∀ fs e w1,
     processFiles env (fileArgsOf opts) w = ((fs, Some e), w1) →
     is_Some err ∧ Out w' = Out w ∧ ErrOut w' = ErrOut w) ∧
  (∀ files w1 e,
     processFiles env (fileArgsOf opts) w = ((Some files, None), w1) →
     HttpClient env = inr e →
     err = Some e ∧ Out w' = Out w ∧
     ErrOut w' = ErrOut w +:+ progressLine env files) ∧
  (∀ files w1 client e,
     processFiles env (fileArgsOf opts) w = ((Some files, None), w1) →
     HttpClient env = inl client →
     apiCreate env client (OverridableDefault env) (Description opts)
       (Public opts) files = inr e →
     is_Some err ∧ Out w' = Out w ∧
     ErrOut w' = ErrOut w +:+ progressLine env files) ∧
  (∀ files w1 client gist,
     processFiles env (fileArgsOf opts) w = ((Some files, None), w1) →
     HttpClient env = inl client →
     apiCreate env client (OverridableDefault env) (Description opts)
       (Public opts) files = inl gist →
     err = None ∧
     Out w' = Out w +:+ (HTMLURL gist +:+ Strings.LF) ∧
     ErrOut w' = (ErrOut w +:+ progressLine env files) +:+ completionLine env files) ∧
  (is_Some err → Out w' = Out w).
Proof.
  destruct (processFiles env (fileArgsOf opts) w) as [[fs [e|]] w1] eqn:Hcollect.
  - rewrite (createRun_collect_failed _ _ _ _ _ _ Hcollect). intros [= <- <-].
    destruct (processFiles_frame _ _ _ _ _ Hcollect) as (HOut & HErr & _).
    split_and!; try done.
    split; [done|by intros (? & ? & ? & ? & [=] & _)].
  - rewrite (createRun_collected _ _ _ _ _ Hcollect). cbn zeta.
    destruct (processFiles_frame _ _ _ _ _ Hcollect) as (HOut & HErr & _).
    assert (∃ files, fs = Some files) as [files ->].
    { apply processFiles_inv in Hcollect as [(_ & _ & [=] & _)|(_ & fs' & -> & _)].
      by exists fs'. }
    change (default ∅ (Some files)) with files.
    destruct (HttpClient env) as [client|e] eqn:Hclient.
    + destruct (apiCreate env client _ _ _ files) as [gist|e] eqn:Hapi.
      * intros [= <- <-]. split_and!; try done.
        -- split; [intros _|done]. by exists files, w1, client, gist.
        -- intros ? ? ? ? [= <- <-] [= <-] Heq. by rewrite Hapi in Heq.
        -- intros ? ? ? ? [= <- <-] [= <-] Heq. rewrite Hapi in Heq.
           injection Heq as <-. simpl. by rewrite HOut, HErr.
      * destruct (Errors.As_HTTPError e) as [h|]; [destruct (bool_decide _ && _)|];
          (intros [= <- <-]; split_and!; try done;
           [ split; [done|];
             intros (? & ? & ? & ? & [= <- <-] & [= <-] & Hok);
             by rewrite Hapi in Hok
           | intros files0 w2 client0 e0 Hc Hcl Ha; injection Hc as <- <-;
             simpl; by rewrite HOut, HErr
           | intros files0 w2 client0 gist0 Hc Hcl Ha; injection Hc as <- <-;
             injection Hcl as <-; by rewrite Hapi in Ha ]).
    + intros [= <- <-]. split_and!; try done.
      * split; [done|]. by intros (? & ? & ? & ? & _ & [=] & _).
      * intros ? ? ? [= <- <-] [= <-]. simpl. by rewrite HOut, HErr.
Qed.

End OrchestrationClaims.

(** * Part IV: the claims on concrete runs *)

Section ConcreteRuns.

Import Examples.

(** Goals [∀ f, f ∈ l → P f] on a concrete list, one file at a time. *)
Local Ltac each_file := apply Forall_forall; repeat constructor.
Local Ltac by_computation := vm_compute; reflexivity.
Local Ltac no_stdin_token :=
  let H := fresh in
  intros H; repeat (apply elem_of_cons in H as [H|H]; [discriminate|]);
  by apply elem_of_nil in H.

(** C1 as stated fails: two files with synthetic names are collected,
    the guessed name is empty and the run succeeds, yet the progress line
    is the generic one and does not say [multiple files]. *)
Lemma createRun_two_unnamed_files_counterexample :
  ∃ files w1 w',
    processFiles envSynthetic (fileArgsOf (optsFor argsSynthetic)) piped
      = ((Some files, None), w1) ∧
    size files = 2 ∧
    guessGistName files = "" ∧
    createRun envSynthetic (optsFor argsSynthetic) piped = (None, w') ∧
    ErrOut w' = "- Creating gist..." +:+ Strings.LF +:+ "??? Created gist" +:+ Strings.LF ∧
    Strings.Contains (ErrOut w') "multiple files" = false.
Proof.
  eexists _, _, _. split_and!; [by_computation..].
Qed.

Lemma createRun_no_name_progress_witness :
  ∃ w', createRun envSynthetic (optsFor argsSynthetic) piped = (None, w') ∧
    ErrOut w' =
      (ErrOut piped +:+ (Gray envSynthetic "-" +:+ " " +:+ "Creating gist..." +:+ Strings.LF))
      +:+ (Green envSynthetic "???" +:+ " " +:+ "Created gist" +:+ Strings.LF) ∧
    Out w' = Out piped +:+ (HTMLURL gist1 +:+ Strings.LF).
Proof.
  eapply (createRun_no_name_progress envSynthetic (optsFor argsSynthetic) piped _ _ tt gist1).
  - by_computation.
  - vm_compute. lia.
  - by_computation.
  - reflexivity.
  - reflexivity.
Defined.

Lemma processFiles_real_files_witness :
  ∃ fs w',
    processFiles envSameBase argsSameBase piped = ((Some fs, None), w') ∧
    dom fs = list_to_set (Path.Base <$> argsSameBase) ∧
    ∀ n f, argsSameBase !! n = Some f →
      (∀ m g, n < m → argsSameBase !! m = Some g → Path.Base g ≠ Path.Base f) →
      fs !! Path.Base f = Some (ReadFile envSameBase f).1.
Proof.
  apply (processFiles_real_files envSameBase argsSameBase piped).
  - discriminate.
  - no_stdin_token.
  - each_file; by_computation.
Defined.

(** C4 as stated fails: standard input is read at index 0, but the value
    under [gistfile0.txt] is the content of the local file of that name
    that comes later in the list. *)
Lemma stdin_entry_overwritten_counterexample :
  ∃ fs w',
    processFiles envShadow argsShadow piped = ((Some fs, None), w') ∧
    argsShadow !! 0 = Some "-" ∧
    (ReadAll (In piped)).1 = ("piped text", None) ∧
    fs !! gistfileName 0 = Some "from the file" ∧
    fs !! gistfileName 0 ≠ Some "piped text".
Proof.
  eexists _, _. split_and!; [by_computation..|].
  vm_compute. discriminate.
Qed.

Lemma processFiles_stdin_entry_witness :
  ∃ fs_i w_i content r,
    processFilesFrom envSameBase 0 (take 1 argsFileAndStdin) ∅ piped
      = ((fs_i, None), w_i) ∧
    ReadAll (In w_i) = ((content, None), r) ∧
    default ∅ (processFiles envSameBase argsFileAndStdin piped).1.1
      !! gistfileName 1 = Some content.
Proof.
  eapply (proj1 (processFiles_stdin_entry envSameBase argsFileAndStdin piped)).
  - by_computation.
  - reflexivity.
  - intros j f Hj Hf. destruct j as [|[|j]]; [lia|lia|]. discriminate.
Defined.

Lemma processFiles_error_cases_witness :
  (collectMissing.1.2 = None ↔
   argsMissing ≠ [] ∧ ∀ n, readErrorAt envSameBase (In piped) argsMissing n = None) ∧
  (argsMissing = [] → collectMissing.1.2 = Some (errorString "no files passed")) ∧
  (∀ n f cause, argsMissing !! n = Some f →
     (∀ m, m < n → readErrorAt envSameBase (In piped) argsMissing m = None) →
     readErrorAt envSameBase (In piped) argsMissing n = Some cause →
     collectMissing.1.2 = Some (Errors.Errorf_w (readErrorPrefix f) cause)) ∧
  (∀ n f cause, argsMissing !! n = Some f → f ≠ "-" →
     (∀ m, m < n → readErrorAt envSameBase (In piped) argsMissing m = None) →
     (ReadFile envSameBase f).2 = Some cause →
     ∃ e, collectMissing.1.2 = Some e ∧
          Errors.Error e = "failed to read file " +:+ f +:+ ": " +:+ Errors.Error cause ∧
          Errors.Unwrap e = Some cause ∧
          hasSubstring (Errors.Error e) f) ∧
  ("-" ∉ argsMissing →
   (is_Some collectMissing.1.2 ↔
    argsMissing = [] ∨ ∃ f, f ∈ argsMissing ∧ is_Some (ReadFile envSameBase f).2)) ∧
  ∃ evs, history collectMissing.2 = history piped ++ evs ∧
    (is_Some collectMissing.1.2 ↔ argsMissing = [] ∨ Exists readFailed evs) ∧
    (∀ f cause, EvReadFile f (Some cause) ∈ evs →
       f ∈ argsMissing ∧ (ReadFile envSameBase f).2 = Some cause ∧
       ∃ e, collectMissing.1.2 = Some e ∧
            Errors.Error e = "failed to read file " +:+ f +:+ ": " +:+ Errors.Error cause ∧
            Errors.Unwrap e = Some cause ∧
            hasSubstring (Errors.Error e) f).
Proof.
  apply (processFiles_error_cases envSameBase argsMissing piped
           collectMissing.1.1 collectMissing.1.2 collectMissing.2).
  by_computation.
Defined.

(** C6 as stated fails: the error of the remote call is an
    [api.HTTPError] whose scope field does not contain [gist] (it is
    empty), and the error returned is the wrapped one, not the
    re-authentication message. *)
Lemma createRun_empty_scopes_counterexample :
  lacksGistScope noScopes ∧
  (createRun envNoScopes (optsFor argsSameBase) piped).1
    = Some (publishError envNoScopes noScopes) ∧
  (createRun envNoScopes (optsFor argsSameBase) piped).1
    ≠ Some (errorString scopeMessage).
Proof.
  split_and!.
  - eexists. split; [reflexivity|]. intros Hsub%Contains_spec. discriminate Hsub.
  - by_computation.
  - vm_compute. discriminate.
Qed.

Lemma createRun_publish_failure_witness :
  ((createRun envRepoScopes (optsFor argsSameBase) piped).1
     = Some (errorString scopeMessage) ↔ insufficientScope repoScopes) ∧
  ((createRun envRepoScopes (optsFor argsSameBase) piped).1
     = Some (publishError envRepoScopes repoScopes) ↔ ¬ insufficientScope repoScopes) ∧
  Errors.Unwrap (publishError envRepoScopes repoScopes) = Some repoScopes ∧
  hasSubstring scopeMessage "Please re-authenticate".
Proof.
  eapply (createRun_publish_failure envRepoScopes (optsFor argsSameBase) piped _ _ tt).
  - by_computation.
  - reflexivity.
  - reflexivity.
Defined.

Lemma createRun_primary_output_witness :
  (runSameBase.1 = None ↔
   ∃ files w1 client gist,
     processFiles envSameBase (fileArgsOf (optsFor argsSameBase)) piped
       = ((Some files, None), w1) ∧
     HttpClient envSameBase = inl client ∧
     apiCreate envSameBase client (OverridableDefault envSameBase)
       (Description (optsFor argsSameBase)) (Public (optsFor argsSameBase)) files
       = inl gist) ∧
  (∀ fs e w1,
     processFiles envSameBase (fileArgsOf (optsFor argsSameBase)) piped
       = ((fs, Some e), w1) →
     is_Some runSameBase.1 ∧ Out runSameBase.2 = Out piped ∧
     ErrOut runSameBase.2 = ErrOut piped) ∧
  (∀ files w1 e,
     processFiles envSameBase (fileArgsOf (optsFor argsSameBase)) piped
       = ((Some files, None), w1) →
     HttpClient envSameBase = inr e →
     runSameBase.1 = Some e ∧ Out runSameBase.2 = Out piped ∧
     ErrOut runSameBase.2 = ErrOut piped +:+ progressLine envSameBase files) ∧
  (∀ files w1 client e,
     processFiles envSameBase (fileArgsOf (optsFor argsSameBase)) piped
       = ((Some files, None), w1) →
     HttpClient envSameBase = inl client →
     apiCreate envSameBase client (OverridableDefault envSameBase)
       (Description (optsFor argsSameBase)) (Public (optsFor argsSameBase)) files
       = inr e →
     is_Some runSameBase.1 ∧ Out runSameBase.2 = Out piped ∧
     ErrOut runSameBase.2 = ErrOut piped +:+ progressLine envSameBase files) ∧
  (∀ files w1 client gist,
     processFiles envSameBase (fileArgsOf (optsFor argsSameBase)) piped
       = ((Some files, None), w1) →
     HttpClient envSameBase = inl client →
     apiCreate envSameBase client (OverridableDefault envSameBase)
       (Description (optsFor argsSameBase)) (Public (optsFor argsSameBase)) files
       = inl gist →
     runSameBase.1 = None ∧
     Out runSameBase.2 = Out piped +:+ (HTMLURL gist +:+ Strings.LF) ∧
     ErrOut runSameBase.2 =
       (ErrOut piped +:+ progressLine envSameBase files)
       +:+ completionLine envSameBase files) ∧
  (is_Some runSameBase.1 → Out runSameBase.2 = Out piped).
Proof.
  apply (createRun_primary_output envSameBase (optsFor argsSameBase) piped).
  by_computation.
Defined.

(** C8 as stated fails: with two ["-"] tokens standard input is read
    twice and closed twice in one call. *)
Lemma processFiles_two_stdin_tokens_counterexample :
  ∃ fs w',
    processFiles envSameBase argsTwoStdin piped = ((Some fs, None), w') ∧
    history w' = [EvReadAll None; EvClose; EvReadAll None; EvClose] ∧
    stdinReads (history w') = 2 ∧
    stdinCloses (history w') = 2.
Proof.
  eexists _, _. split_and!; by_computation.
Qed.

Lemma processFiles_stdin_reads_witness :
  ∃ evs, history collectFileAndStdin.2 = history piped ++ evs ∧
    stdinReads evs ≤ stdinTokens argsFileAndStdin ∧
    stdinCloses evs ≤ stdinReads evs ∧
    (collectFileAndStdin.1.2 = None →
       stdinReads evs = stdinTokens argsFileAndStdin ∧
       stdinCloses evs = stdinTokens argsFileAndStdin) ∧
    (stdinTokens argsFileAndStdin ≤ 1 → stdinReads evs ≤ 1 ∧ stdinCloses evs ≤ 1) ∧
    (collectFileAndStdin.1.2 = None →
       evs = flat_map okEvents argsFileAndStdin ∧
       In collectFileAndStdin.2 = foldl useStdin (In piped) argsFileAndStdin) ∧
    (is_Some collectFileAndStdin.1.2 → argsFileAndStdin ≠ [] →
       ∃ n f c, argsFileAndStdin !! n = Some f ∧
         readErrorAt envSameBase (In piped) argsFileAndStdin n = Some c ∧
         evs = flat_map okEvents (take n argsFileAndStdin) ++
               [if decide (f = "-") then EvReadAll (Some c) else EvReadFile f (Some c)] ∧
         In collectFileAndStdin.2 =
           (if decide (f = "-")
            then (ReadAll (foldl useStdin (In piped) (take n argsFileAndStdin))).2
            else foldl useStdin (In piped) (take n argsFileAndStdin))) ∧
    (argsFileAndStdin = [] → evs = [] ∧ In collectFileAndStdin.2 = In piped) ∧
    (∀ i, evs !! i = Some (EvReadAll None) → evs !! S i = Some EvClose) ∧
    (∀ i, evs !! i = Some EvClose → ∃ j, i = S j ∧ evs !! j = Some (EvReadAll None)) ∧
    (∀ i c, evs !! i = Some (EvReadAll (Some c)) → S i = length evs).
Proof.
  apply (processFiles_stdin_reads envSameBase argsFileAndStdin piped
           collectFileAndStdin.1).
  by_computation.
Defined.

Lemma synthetic_basenames_not_guessed_witness :
  ∃ fs w',
    processFiles envSynthetic argsSynthetic piped = ((Some fs, None), w') ∧
    stdinReads (history w') = stdinReads (history piped) ∧
    (∀ f, f ∈ argsSynthetic → syntheticName (Path.Base f) →
       Path.Base f ∈ dom fs ∧ guessGistName fs ≠ Path.Base f) ∧
    ((∀ f, f ∈ argsSynthetic → syntheticName (Path.Base f)) →
       guessGistName fs = "" ∧
       ∀ keys, rangeOrder fs keys → guessGistNameIn keys = "").
Proof.
  apply (synthetic_basenames_not_guessed envSynthetic argsSynthetic piped).
  - discriminate.
  - no_stdin_token.
  - each_file; by_computation.
Defined.

(** The local file [notes/gistfile5.txt] is collected under the key
    [gistfile5.txt], and no name is guessed. *)
Example gistfile5_not_guessed :
  ∃ fs w',
    processFiles envSynthetic argsSynthetic piped = ((Some fs, None), w') ∧
    fs !! "gistfile5.txt" = Some "five" ∧
    guessGistName fs = "" ∧
    history w' = [EvReadFile "gistfile1.txt" None; EvReadFile "notes/gistfile5.txt" None].
Proof. eexists _, _. split_and!; by_computation. Qed.

(** On a file descriptor the second read of two ["-"] tokens is still
    made; it fails because the first one closed the stream. *)
Example two_stdin_tokens_on_a_file :
  ∃ fs e w',
    processFiles envSameBase argsTwoStdin
      (startWorld {| contents := "piped text"; closed := false |})
      = ((Some fs, Some e), w') ∧
    Errors.Error e = "failed to read from stdin: file already closed" ∧
    stdinReads (history w') = 2 ∧
    stdinCloses (history w') = 1.
Proof. eexists _, _, _. split_and!; by_computation. Qed.

End ConcreteRuns.

(** * Part V: further properties of the collector *)

Lemma tokenKey_stdin i : tokenKey i "-" = gistfileName i.
Proof. unfold tokenKey. by rewrite decide_True. Qed.

Lemma tokenKey_file i f : f ≠ "-" → tokenKey i f = Path.Base f.
Proof. intros. unfold tokenKey. by rewrite decide_False. Qed.

Lemma Base_nonempty f : Path.Base f ≠ "".
Proof.
  unfold Path.Base. case_decide; [done|].
  cbn zeta. by case_decide.
Qed.

Lemma gistfileName_nonempty i : gistfileName i ≠ "".
Proof. done. Qed.

Lemma tokenKey_nonempty i f : tokenKey i f ≠ "".
Proof.
  unfold tokenKey. case_decide; [apply gistfileName_nonempty | apply Base_nonempty].
Qed.

Section CollectorKeys.

Context {R : Type} `{!ReadCloser R}.
Variable env : Env.

Ltac loop_step w f :=
  cbn [processFilesFrom]; unfold readAllStdin, readFile;
  destruct (decide (f = "-")) as [->|?];
  [ destruct (ReadAll (In w)) as [[? [?|]] ?] eqn:?
  | destruct (ReadFile env f) as [? [?|]] eqn:? ]; cbn [fst snd].

(** The keys after the loop: those before it and the keys of the
    tokens. *)
Lemma processFilesFrom_keys l i fs (w : World R) fs' w' :
  processFilesFrom env i l fs w = ((fs', None), w') →
  ∀ k, k ∈ dom fs' ↔ k ∈ dom fs ∨ ∃ n f, l !! n = Some f ∧ k = tokenKey (i + n) f.
Proof.
  revert i fs w. induction l as [|f l IH]; intros i fs w.
  - simpl. intros [= <- <-] k. split; [by left|].
    by intros [?|(n & f & [=] & _)].
  - loop_step w f; try done.
    + intros Hrun k.
      rewrite (IH _ _ _ Hrun k), dom_insert_L, elem_of_union, elem_of_singleton.
      split.
      * intros [[->|?]|(n & g & Hn & ->)].
        -- right. exists 0, "-". by rewrite Nat.add_0_r, tokenKey_stdin.
        -- by left.
        -- right. exists (S n), g. by rewrite Nat.add_succ_r.
      * intros [?|([|n] & g & Hn & ->)].
        -- left. by right.
        -- injection Hn as <-. left. left. by rewrite Nat.add_0_r, tokenKey_stdin.
        -- right. exists n, g. by rewrite Nat.add_succ_r.
    + intros Hrun k.
      rewrite (IH _ _ _ Hrun k), dom_insert_L, elem_of_union, elem_of_singleton.
      split.
      * intros [[->|?]|(m & g & Hm & ->)].
        -- right. exists 0, f. by rewrite Nat.add_0_r, tokenKey_file.
        -- by left.
        -- right. exists (S m), g. by rewrite Nat.add_succ_r.
      * intros [?|([|m] & g & Hm & ->)].
        -- left. by right.
        -- injection Hm as <-. left. left. by rewrite Nat.add_0_r, tokenKey_file.
        -- right. exists m, g. by rewrite Nat.add_succ_r.
Qed.

(** The loop adds at most one entry for each token, and exactly one
    when the keys of the tokens are new and pairwise distinct. *)
Lemma processFilesFrom_size l i fs (w : World R) fs' w' :
  processFilesFrom env i l fs w = ((fs', None), w') →
  size fs ≤ size fs' ≤ size fs + length l ∧
  ((∀ n f, l !! n = Some f → tokenKey (i + n) f ∉ dom fs) →
   (∀ n m f g, l !! n = Some f → l !! m = Some g →
      tokenKey (i + n) f = tokenKey (i + m) g → n = m) →
   size fs' = size fs + length l).
Proof.
  revert i fs w. induction l as [|f l IH]; intros i fs w.
  - simpl. intros [= <- <-]. split; [lia|]. intros _ _. lia.
  - assert (∀ k v (w1 : World R),
      k = tokenKey i f →
      processFilesFrom env (S i) l (<[k:=v]> fs) w1 = ((fs', None), w') →
      size fs ≤ size fs' ≤ size fs + length (f :: l) ∧
      ((∀ n g, (f :: l) !! n = Some g → tokenKey (i + n) g ∉ dom fs) →
       (∀ n m g h, (f :: l) !! n = Some g → (f :: l) !! m = Some h →
          tokenKey (i + n) g = tokenKey (i + m) h → n = m) →
       size fs' = size fs + length (f :: l))) as Hstep.
    { intros k v w1 Hk Hrun. destruct (IH _ _ _ Hrun) as [Hle Heq].
      pose proof (map_size_insert k v fs) as Hins. split.
      - simpl. destruct (fs !! k); unfold id in Hins; lia.
      - intros Hnew Hdist. simpl. rewrite <-Nat.add_succ_comm.
        assert (fs !! k = None) as Hnone.
        { apply not_elem_of_dom. subst k. specialize (Hnew 0 f eq_refl).
          by rewrite Nat.add_0_r in Hnew. }
        rewrite Hnone in Hins. rewrite <-Hins. apply Heq.
        + intros n g Hn. rewrite dom_insert_L, not_elem_of_union, not_elem_of_singleton.
          replace (S i + n) with (i + S n) by lia. split.
          * subst k. intros Heqk. rewrite <-(Nat.add_0_r i) in Heqk at 2.
            by specialize (Hdist (S n) 0 g f Hn eq_refl Heqk).
          * by apply (Hnew (S n) g).
        + intros n m g h Hn Hm Hkeys.
          replace (S i + n) with (i + S n) in Hkeys by lia.
          replace (S i + m) with (i + S m) in Hkeys by lia.
          by specialize (Hdist (S n) (S m) g h Hn Hm Hkeys) as [= ->]. }
    loop_step w f; try done.
    + intros Hrun. eapply Hstep; [|done..]. by rewrite tokenKey_stdin.
    + intros Hrun. eapply Hstep; [|done..]. by rewrite tokenKey_file.
Qed.

(** A key written by a token keeps the content of that token when no
    later token has the same key. *)
Lemma processFilesFrom_keeps l i fs (w : World R) fs' w' k :
  processFilesFrom env i l fs w = ((fs', None), w') →
  (∀ n f, l !! n = Some f → tokenKey (i + n) f ≠ k) →
  fs' !! k = fs !! k.
Proof.
  intros Hrun Hk. eapply processFilesFrom_other; [done| |].
  - intros n f Hn Hf. rewrite <-(tokenKey_file (i + n)) by done. by apply Hk.
  - intros n Hn. rewrite <-tokenKey_stdin. by apply Hk.
Qed.

End CollectorKeys.

Section CollectorRuns.

Context {R : Type} `{!ReadCloser R}.
Variable env : Env.

Ltac loop_step w f :=
  cbn [processFilesFrom]; unfold readAllStdin, readFile;
  destruct (decide (f = "-")) as [->|?];
  [ destruct (ReadAll (In w)) as [[? [?|]] ?] eqn:?
  | destruct (ReadFile env f) as [? [?|]] eqn:? ]; cbn [fst snd].

(** A loop that ends with an error stopped at the first read that
    failed: the tokens before it were processed without error, the map
    returned is the one they left, and the failed read is the last call. *)
Lemma processFilesFrom_stops l i fs (w : World R) fs' e w' :
  processFilesFrom env i l fs w = ((fs', Some e), w') →
  ∃ n f w_n ev,
    l !! n = Some f ∧
    processFilesFrom env i (take n l) fs w = ((fs', None), w_n) ∧
    history w' = history w_n ++ [ev] ∧ In w' = (if decide (f = "-") then (ReadAll (In w_n)).2 else In w_n) ∧
    ((f = "-" ∧ ∃ c, ev = EvReadAll (Some c) ∧
        e = Errors.Errorf_w "failed to read from stdin: " c) ∨
     (f ≠ "-" ∧ ∃ c, ev = EvReadFile f (Some c) ∧ (ReadFile env f).2 = Some c ∧
        e = Errors.Errorf_w ("failed to read file " +:+ f +:+ ": ") c)).
Proof.
  revert i fs w. induction l as [|f l IH]; intros i fs w; [done|].
  loop_step w f.
  - intros [= <- <- <-]. exists 0, "-", w, (EvReadAll (Some e0)).
    rewrite decide_True by done. rewrite Heqp.
    split_and!; [done..|]. left. split; [done|]. by exists e0.
  - intros (n & g & w_n & ev & Hn & Hpre & Hrest)%IH.
    exists (S n), g, w_n, ev. split_and!; [done| |apply Hrest..].
    cbn [take processFilesFrom]. rewrite decide_True by done.
    unfold readAllStdin. by rewrite Heqp.
  - intros [= <- <- <-]. exists 0, f, w, (EvReadFile f (Some e0)).
    rewrite decide_False by done.
    split_and!; [done..|]. right. split; [done|]. exists e0. by rewrite Heqp.
  - intros (m & g & w_n & ev & Hm & Hpre & Hrest)%IH.
    exists (S m), g, w_n, ev. split_and!; [done| |apply Hrest..].
    cbn [take processFilesFrom]. rewrite decide_False by done.
    unfold readFile. by rewrite Heqp.
Qed.

(** Without a ["-"] token the stream of standard input stays as it is. *)
Lemma processFilesFrom_no_stdin l i fs (w : World R) res w' :
  "-" ∉ l → processFilesFrom env i l fs w = (res, w') → In w' = In w.
Proof.
  revert i fs w. induction l as [|f l IH]; intros i fs w Hdash.
  - simpl. by intros [= <- <-].
  - apply not_elem_of_cons in Hdash as [Hf Hdash].
    cbn [processFilesFrom]. rewrite decide_False by done. unfold readFile.
    destruct (ReadFile env f) as [? [?|]]; cbn [fst snd].
    + by intros [= <- <-].
    + intros Hrun. by rewrite (IH _ _ _ Hdash Hrun).
Qed.

Lemma stdinTokens_none l : "-" ∉ l → stdinTokens l = 0.
Proof.
  unfold stdinTokens. induction l as [|f l IH]; [done|].
  intros [Hf Hl]%not_elem_of_cons. simpl.
  rewrite bool_decide_false by done. auto.
Qed.

(** The file system is all that the collector takes from the
    environment. *)
Lemma processFilesFrom_sameFiles env' l i fs (w : World R) :
  sameFiles env env' →
  processFilesFrom env i l fs w = processFilesFrom env' i l fs w.
Proof.
  intros Hsame. revert i fs w. induction l as [|f l IH]; intros i fs w; [done|].
  cbn [processFilesFrom]. case_decide.
  - destruct (readAllStdin w) as [[? [?|]] ?]; [done|apply IH].
  - unfold readFile. rewrite <-(Hsame f).
    destruct (ReadFile env f) as [? [?|]]; cbn [fst snd]; [done|apply IH].
Qed.

End CollectorRuns.

Section CollectorExtras.

Context {R : Type} `{!ReadCloser R}.
Variable env : Env.

Lemma processFiles_token_keys (l : list string) (w : World R)
    (fs : gmap string string) (w' : World R) :
  processFiles env l w = ((Some fs, None), w') →
  ∀ k, k ∈ dom fs ↔ ∃ n f, l !! n = Some f ∧ k = tokenKey n f.
Proof.
  intros [(_ & [=] & _)|(Hl & fs' & [= <-] & Hrun)]%processFiles_inv k.
  rewrite (processFilesFrom_keys env _ _ _ _ _ _ Hrun k), dom_empty_L.
  split; [intros [[]%not_elem_of_empty|?]; done | by right].
Qed.

(** X1.  On a run of [processFiles] without error the keys of the map
    are exactly the keys of the tokens, [gistfile{i}.txt] for a ["-"] at
    index [i] and the basename for a file; no key is the empty string. *)
Theorem processFiles_keys (l : list string) (w : World R)
    (fs : gmap string string) (w' : World R) :
  processFiles env l w = ((Some fs, None), w') →
  (∀ k, k ∈ dom fs ↔ ∃ n f, l !! n = Some f ∧ k = tokenKey n f) ∧
  "" ∉ dom fs.
Proof.
  intros Hrun. pose proof (processFiles_token_keys _ _ _ _ Hrun) as Hkeys.
  split; [done|]. intros (n & f & _ & Heq)%Hkeys.
  by apply (tokenKey_nonempty n f).
Qed.

(** X2.  Last write wins among all tokens: on a run without error the
    value under the basename of a file is the content of that file,
    unless a later token of the list, a file or a ["-"], has the same
    key. *)
Theorem processFiles_last_token_wins (l : list string) (w : World R)
    (fs : gmap string string) (w' : World R) (n : nat) (f : string) :
  processFiles env l w = ((Some fs, None), w') →
  l !! n = Some f → f ≠ "-" →
  (∀ m g, n < m → l !! m = Some g → tokenKey m g ≠ Path.Base f) →
  fs !! Path.Base f = Some (ReadFile env f).1.
Proof.
  intros [(_ & [=] & _)|(Hl & fs' & [= <-] & Hrun)]%processFiles_inv Hn Hf Hlater.
  assert (n < length l) as Hlen by by eapply lookup_lt_Some.
  rewrite <-(take_drop_middle l n f Hn), processFilesFrom_app in Hrun.
  destruct (processFilesFrom env 0 (take n l) ∅ w) as [[fs_n [e|]] w_n]; [done|].
  rewrite length_take_le in Hrun by lia. cbn [processFilesFrom] in Hrun.
  rewrite decide_False in Hrun by done. unfold readFile in Hrun.
  destruct (ReadFile env f) as [content [e|]]; [done|]. cbn [fst snd] in Hrun.
  rewrite (processFilesFrom_keeps env _ _ _ _ _ _ _ Hrun).
  - apply lookup_insert_eq.
  - intros m g Hm. apply (Hlater (S (n + m))); [lia|].
    by rewrite <-Hm, lookup_drop, Nat.add_succ_l.
Qed.

(** X3.  A run without error leaves at least one entry and at most one
    for each token, and exactly one for each token when the keys of the
    tokens are pairwise distinct. *)
Theorem processFiles_size (l : list string) (w : World R)
    (fs : gmap string string) (w' : World R) :
  processFiles env l w = ((Some fs, None), w') →
  1 ≤ size fs ≤ length l ∧
  ((∀ n m f g, l !! n = Some f → l !! m = Some g →
      tokenKey n f = tokenKey m g → n = m) →
   size fs = length l).
Proof.
  intros Hrun. pose proof (processFiles_token_keys _ _ _ _ Hrun) as Hkeys.
  apply processFiles_inv in Hrun as [(_ & [=] & _)|(Hl & fs' & [= <-] & Hrun)].
  destruct (processFilesFrom_size env _ _ _ _ _ _ Hrun) as [Hle Heq].
  rewrite map_size_empty in Hle, Heq. split_and!; [|lia|].
  - destruct l as [|f l]; [done|].
    assert (tokenKey 0 f ∈ dom fs) as [v Hv]%elem_of_dom
      by (apply Hkeys; by exists 0, f).
    destruct (decide (size fs = 0)) as [Hz%map_size_empty_iff|]; [|lia].
    by rewrite Hz, lookup_empty in Hv.
  - intros Hdist. apply Heq; [|done]. intros n f _. by rewrite dom_empty_L.
Qed.

(** X4.  [processFiles] stops at the first read that fails: the tokens
    before it were processed without error and the map returned with the
    error is the one they left, the failed read is the last call in the
    history, and the error names standard input or the file. *)
Theorem processFiles_stops_at_first_failure (l : list string) (w : World R)
    (fs : option (gmap string string)) (e : error) (w' : World R) :
  processFiles env l w = ((fs, Some e), w') → l ≠ [] →
  ∃ n f fs_n w_n ev,
    l !! n = Some f ∧ fs = Some fs_n ∧
    processFilesFrom env 0 (take n l) ∅ w = ((fs_n, None), w_n) ∧
    history w' = history w_n ++ [ev] ∧
    ((f = "-" ∧ ∃ c, ev = EvReadAll (Some c) ∧
        e = Errors.Errorf_w "failed to read from stdin: " c) ∨
     (f ≠ "-" ∧ ∃ c, ev = EvReadFile f (Some c) ∧ (ReadFile env f).2 = Some c ∧
        e = Errors.Errorf_w ("failed to read file " +:+ f +:+ ": ") c)).
Proof.
  intros [(-> & _)|(_ & fs' & -> & Hrun)]%processFiles_inv Hl; [done|].
  destruct (processFilesFrom_stops env _ _ _ _ _ _ _ Hrun)
    as (n & f & w_n & ev & Hn & Hpre & Hh & _ & Hev).
  by exists n, f, fs', w_n, ev.
Qed.

Lemma processFiles_In (l : list string) (w : World R)
    (res : option (gmap string string) * option error) (w' : World R) :
  "-" ∉ l → processFiles env l w = (res, w') → In w' = In w.
Proof.
  intros Hdash Hrun. destruct res as [fs err].
  apply processFiles_inv in Hrun as [(_ & _ & _ & ->)|(_ & fs' & _ & Hrun)]; [done|].
  by eapply processFilesFrom_no_stdin.
Qed.

(** X5.  Without a ["-"] token [processFiles] never touches standard
    input, whether its reads succeed or fail: the stream is left as it
    was, and it is neither read nor closed. *)
Theorem processFiles_leaves_stdin (l : list string) (w : World R)
    (res : option (gmap string string) * option error) (w' : World R) :
  "-" ∉ l → processFiles env l w = (res, w') →
  In w' = In w ∧
  ∃ evs, history w' = history w ++ evs ∧ stdinReads evs = 0 ∧ stdinCloses evs = 0.
Proof.
  intros Hdash Hrun. split; [by eapply processFiles_In|].
  destruct res as [fs err].
  apply processFiles_inv in Hrun as [(_ & _ & _ & ->)|(_ & fs' & _ & Hrun)].
  - exists []. by rewrite app_nil_r.
  - destruct (processFilesFrom_frame env _ _ _ _ _ _ _ Hrun) as (_ & _ & evs & Hh).
    destruct (processFilesFrom_stdin env _ _ _ _ _ _ _ _ Hrun Hh) as (Hreads & Hcloses & _).
    rewrite stdinTokens_none in Hreads by done.
    exists evs. split; [done|]. lia.
Qed.

(** X6.  The guessed name of a collected map is never a name given to
    standard input: it is the empty string or the basename of a file of
    the list, and it is empty when every token is ["-"]. *)
Theorem guessed_name_is_a_file (l : list string) (w : World R)
    (fs : gmap string string) (w' : World R) :
  processFiles env l w = ((Some fs, None), w') →
  (guessGistName fs = "" ∨
   ∃ n f, l !! n = Some f ∧ f ≠ "-" ∧ guessGistName fs = Path.Base f) ∧
  ((∀ f, f ∈ l → f = "-") → guessGistName fs = "").
Proof.
  intros Hrun. pose proof (processFiles_token_keys _ _ _ _ Hrun) as Hkeys.
  assert (rangeOrder fs (map_to_list fs).*1) as Hord by (unfold rangeOrder; reflexivity).
  split.
  - unfold guessGistName.
    destruct (guessGistNameIn_cases (map_to_list fs).*1) as [[_ ->]|[Hin _]];
      [by left|right].
    apply list_elem_of_filter in Hin as [Hreal%realName_iff Hin].
    apply (elem_of_rangeOrder _ _ _ Hord), Hkeys in Hin as (n & f & Hn & Heq).
    exists n, f. destruct (decide (f = "-")) as [->|Hf].
    + rewrite tokenKey_stdin in Heq. rewrite Heq in Hreal.
      destruct Hreal. apply gistfileName_synthetic.
    + by rewrite tokenKey_file in Heq.
  - intros Hall. apply guessGistNameIn_synthetic. intros k Hk.
    apply (elem_of_rangeOrder _ _ _ Hord), Hkeys in Hk as (n & f & Hn & ->).
    rewrite (Hall f) by (by eapply list_elem_of_lookup_2).
    rewrite tokenKey_stdin. apply gistfileName_synthetic.
Qed.

End CollectorExtras.

(** * Part VI: further properties of the name heuristic *)

(** [guessGistName] read on the key set of the map. *)
Lemma guessGistName_cases (fs : gmap string string) :
  ((∀ k, k ∈ dom fs → syntheticName k) ∧ guessGistName fs = "") ∨
  (guessGistName fs ∈ dom fs ∧ ¬ syntheticName (guessGistName fs) ∧
   ∀ k, k ∈ dom fs → ¬ syntheticName k → (guessGistName fs ≤ k)%string).
Proof.
  assert (rangeOrder fs (map_to_list fs).*1) as Hord by (unfold rangeOrder; reflexivity).
  unfold guessGistName.
  destruct (guessGistNameIn_cases (map_to_list fs).*1) as [[Hnil ->]|[Hin Hmin]].
  - left. split; [|done]. intros k Hk%(elem_of_rangeOrder _ _ _ Hord).
    destruct (decide (realName k)) as [Hreal|Hsyn].
    + assert (k ∈ filter realName (map_to_list fs).*1) as Hkf
        by by apply list_elem_of_filter.
      rewrite Hnil in Hkf. by apply elem_of_nil in Hkf.
    + apply MatchString_re. unfold realName in Hsyn.
      by destruct (Regexp.MatchString re k).
  - right. apply list_elem_of_filter in Hin as [Hreal Hin]. split_and!.
    + by apply (elem_of_rangeOrder _ _ _ Hord).
    + by apply realName_iff.
    + intros k Hk%(elem_of_rangeOrder _ _ _ Hord) Hk'%realName_iff.
      apply Hmin. by apply list_elem_of_filter.
Qed.

(** X7.  The guessed name depends only on the keys that do not have
    the form [gistfileN.txt]: two maps with the same such keys have the
    same guessed name, whatever their contents and their other keys. *)
Theorem guessGistName_real_keys_only (fs1 fs2 : gmap string string) :
  (∀ k, ¬ syntheticName k → k ∈ dom fs1 ↔ k ∈ dom fs2) →
  guessGistName fs1 = guessGistName fs2.
Proof.
  intros Hsame.
  destruct (guessGistName_cases fs1) as [[Hs1 ->]|(Hin1 & Hr1 & Hmin1)],
           (guessGistName_cases fs2) as [[Hs2 ->]|(Hin2 & Hr2 & Hmin2)].
  - done.
  - exfalso. apply Hr2, Hs1. by apply (Hsame _ Hr2).
  - exfalso. apply Hr1, Hs2. by apply (Hsame _ Hr1).
  - apply (anti_symm (≤)%string).
    + apply Hmin1; [by apply (Hsame _ Hr2) | done].
    + apply Hmin2; [by apply (Hsame _ Hr1) | done].
Qed.

(** X8.  Adding an entry whose key has the form [gistfileN.txt] leaves
    the guessed name as it is; adding an entry with any other key [k]
    gives [k] or the former guessed name, and a name that is not above
    [k]. *)
Theorem guessGistName_insert (fs : gmap string string) (k v : string) :
  (syntheticName k → guessGistName (<[k:=v]> fs) = guessGistName fs) ∧
  (¬ syntheticName k →
     (guessGistName (<[k:=v]> fs) = k ∨
      guessGistName (<[k:=v]> fs) = guessGistName fs) ∧
     (guessGistName (<[k:=v]> fs) ≤ k)%string).
Proof.
  split.
  - intros Hsyn. apply guessGistName_real_keys_only. intros k' Hk'.
    rewrite dom_insert_L, elem_of_union, elem_of_singleton. split; [|by right].
    intros [->|?]; done.
  - intros Hreal.
    assert (k ∈ dom (<[k:=v]> fs)) as Hk
      by (rewrite dom_insert_L, elem_of_union, elem_of_singleton; by left).
    destruct (guessGistName_cases (<[k:=v]> fs)) as [[Hs _]|(Hin & Hr & Hmin)];
      [exfalso; by apply Hreal, Hs|].
    split; [|by apply Hmin].
    rewrite dom_insert_L, elem_of_union, elem_of_singleton in Hin.
    destruct Hin as [Heq|Hin]; [by left|right].
    destruct (guessGistName_cases fs) as [[Hs _]|(Hin' & Hr' & Hmin')];
      [exfalso; by apply Hr, Hs|].
    apply (anti_symm (≤)%string).
    + apply Hmin; [|done]. rewrite dom_insert_L, elem_of_union. by right.
    + by apply Hmin'.
Qed.

(** X9.  The pattern of [guessGistName] matches exactly the names
    [gistfile], one or more ASCII digits, [.txt]; it matches every name
    that [processFiles] gives to standard input, and these names differ
    for different indices. *)
Theorem stdin_names_and_pattern (k : string) (i j : nat) :
  (Regexp.MatchString re k = true ↔
   ∃ ds, ds ≠ "" ∧ Regexp.all_digits ds = true ∧ k = "gistfile" +:+ ds +:+ ".txt") ∧
  Regexp.MatchString re (gistfileName i) = true ∧
  (gistfileName i = gistfileName j → i = j).
Proof.
  split_and!.
  - apply MatchString_re.
  - apply MatchString_re, gistfileName_synthetic.
  - apply gistfileName_inj.
Qed.

(** * Part VII: the keys of files *)

Lemma afterLastSlash_None s : Path.afterLastSlash s = None ↔ hasSlash s = false.
Proof.
  induction s as [|c s IH]; simpl; [done|].
  destruct (Path.afterLastSlash s) as [t|].
  - split; [done|]. intros [_ Hs]%orb_false_iff. by apply IH in Hs.
  - case_decide as Hc; subst.
    + split; [done|]. by rewrite bool_decide_true.
    + rewrite bool_decide_false by done. simpl. split; [intros _; by apply IH | done].
Qed.

Lemma afterLastSlash_Some s t : Path.afterLastSlash s = Some t → hasSlash t = false.
Proof.
  revert t. induction s as [|c s IH]; intros t; simpl; [done|].
  destruct (Path.afterLastSlash s) as [t'|] eqn:Hs.
  - intros [= <-]. by apply IH.
  - case_decide; [|done]. intros [= <-]. by apply afterLastSlash_None.
Qed.

Lemma afterLastSlash_app dir name :
  hasSlash name = false →
  Path.afterLastSlash (dir +:+ "/" +:+ name) = Some name.
Proof.
  intros Hname. induction dir as [|c dir IH].
  - rewrite string_app_nil_l. change ("/" +:+ name) with (String "/"%char name).
    simpl. by apply afterLastSlash_None in Hname as ->.
  - rewrite string_app_cons. simpl. by rewrite IH.
Qed.

Lemma stripTrailingSlashes_no_slash s :
  hasSlash s = false → Path.stripTrailingSlashes s = s.
Proof.
  induction s as [|c s IH]; simpl; [done|].
  intros [Hc%bool_decide_eq_false Hs]%orb_false_iff.
  rewrite IH by done. rewrite decide_False; [done|]. by intros [? _].
Qed.

Lemma stripTrailingSlashes_app a b :
  b ≠ "" → Path.stripTrailingSlashes b = b →
  Path.stripTrailingSlashes (a +:+ b) = a +:+ b.
Proof.
  intros Hb Hsb. induction a as [|c a IH]; [done|].
  rewrite string_app_cons. simpl. rewrite IH.
  rewrite decide_False; [done|]. intros [_ Heq].
  by apply string_app_eq_nil in Heq as [_ ?].
Qed.

Lemma digits_no_slash ds : Regexp.all_digits ds = true → hasSlash ds = false.
Proof.
  induction ds as [|c ds IH]; simpl; [done|].
  intros [Hc Hds]%andb_true_iff. rewrite IH by done.
  rewrite bool_decide_false; [done|]. by intros ->.
Qed.

Lemma hasSlash_app a b : hasSlash (a +:+ b) = hasSlash a || hasSlash b.
Proof.
  induction a as [|c a IH]; [done|].
  rewrite string_app_cons. simpl. by rewrite IH, orb_assoc.
Qed.

(** X10.  The key of a file is its name without the directories: for a
    path [dir/name] with a non-empty [name] that has no slash the key is
    [name].  The key of any token has no slash, unless it is the single
    slash that [path.Base] gives for a path of slashes only. *)
Theorem keys_drop_directories (i : nat) (f dir name : string) :
  (name ≠ "" → hasSlash name = false →
   tokenKey i (dir +:+ "/" +:+ name) = name) ∧
  (hasSlash (tokenKey i f) = false ∨ tokenKey i f = "/").
Proof.
  split.
  - intros Hne Hname.
    assert (dir +:+ "/" +:+ name ≠ "-") as Hdash.
    { intros Heq. apply (f_equal hasSlash) in Heq.
      rewrite !hasSlash_app in Heq. simpl in Heq.
      by rewrite orb_true_r in Heq. }
    rewrite tokenKey_file by done. unfold Path.Base.
    rewrite decide_False
      by (intros [_ [[=] _]%string_app_eq_nil]%string_app_eq_nil).
    cbn zeta. rewrite string_app_assoc.
    rewrite stripTrailingSlashes_app;
      [|done|by apply stripTrailingSlashes_no_slash].
    rewrite <-string_app_assoc, afterLastSlash_app by done. simpl.
    by rewrite decide_False.
  - unfold tokenKey. case_decide.
    + left. unfold gistfileName. rewrite !hasSlash_app.
      by rewrite (digits_no_slash _ (Sprint_d_digits i)).
    + unfold Path.Base. case_decide; [by left|]. cbn zeta.
      case_decide; [by right|]. left.
      destruct (Path.afterLastSlash (Path.stripTrailingSlashes f)) as [t|] eqn:Ht;
        simpl.
      * by eapply afterLastSlash_Some.
      * by apply afterLastSlash_None.
Qed.

(** * Part VIII: further properties of the command *)

Lemma fileArgsOf_nonempty opts : fileArgsOf opts ≠ [].
Proof.
  unfold fileArgsOf. by destruct (Filenames opts) as [|f l].
Qed.

Lemma guessGistName_singleton (k v : string) :
  guessGistName {[k := v]} = if Regexp.MatchString re k then "" else k.
Proof.
  destruct (guessGistName_cases {[k := v]}) as [[Hs ->]|(Hin & Hr & _)].
  - assert (syntheticName k) as ->%MatchString_re; [|done].
    apply Hs. rewrite dom_singleton_L. by apply elem_of_singleton.
  - rewrite dom_singleton_L in Hin. apply elem_of_singleton in Hin.
    rewrite Hin in *. apply realName_iff in Hr. unfold realName in Hr. by rewrite Hr.
Qed.

Section RunExtras.

Context {R : Type} `{!ReadCloser R}.
Variable env : Env.

Lemma processFiles_sameFiles env' l (w : World R) :
  sameFiles env env' → processFiles env l w = processFiles env' l w.
Proof.
  intros Hsame. unfold processFiles. case_decide; [done|].
  by rewrite (processFilesFrom_sameFiles env env' _ _ _ _ Hsame).
Qed.

(** [createRun] makes no call on the input side after the collection. *)
Lemma createRun_input opts (w : World R) :
  In (createRun env opts w).2 = In (processFiles env (fileArgsOf opts) w).2 ∧
  history (createRun env opts w).2 = history (processFiles env (fileArgsOf opts) w).2.
Proof.
  destruct (processFiles env (fileArgsOf opts) w) as [[fs [e|]] w1] eqn:Hcollect.
  - by rewrite (createRun_collect_failed _ _ _ _ _ _ Hcollect).
  - rewrite (createRun_collected _ _ _ _ _ Hcollect). cbn zeta.
    destruct (HttpClient env) as [client|?]; [|done].
    destruct (apiCreate env client _ _ _ _) as [gist|e]; [done|].
    destruct (Errors.As_HTTPError e) as [h|]; [|done].
    by destruct (bool_decide _ && _).
Qed.

(** X11.  Without file names the command publishes standard input:
    when the read succeeds and the client and the remote call give no
    error, standard input is read once and closed, the map sent has the
    single entry [gistfile0.txt] with the content read, the status stream
    receives the lines [Creating gist...] and [Created gist], and the
    primary output stream the URL. *)
Theorem createRun_from_pipe (opts : CreateOptions) (w : World R)
    (content : string) (r : R) (client : Client) (gist : Gist) :
  Filenames opts = [] →
  ReadAll (In w) = ((content, None), r) →
  HttpClient env = inl client →
  apiCreate env client (OverridableDefault env) (Description opts) (Public opts)
    {["gistfile0.txt" := content]} = inl gist →
  ∃ w', createRun env opts w = (None, w') ∧
    In w' = Close r ∧
    history w' = history w ++ [EvReadAll None; EvClose] ∧
    ErrOut w' =
      (ErrOut w +:+ (Gray env "-" +:+ " " +:+ "Creating gist..." +:+ Strings.LF))
      +:+ (Green env "???" +:+ " " +:+ "Created gist" +:+ Strings.LF) ∧
    Out w' = Out w +:+ (HTMLURL gist +:+ Strings.LF).
Proof.
  intros Hnil Hread Hclient Hapi.
  assert (processFiles env (fileArgsOf opts) w =
          ((Some {["gistfile0.txt" := content]}, None),
           closeStdin (readAllStdin w).2)) as Hcollect.
  { unfold fileArgsOf. rewrite Hnil. cbn [length]. rewrite decide_True by done.
    rewrite processFiles_loop by done. cbn [processFilesFrom].
    rewrite decide_True by done. unfold readAllStdin. by rewrite Hread. }
  rewrite (createRun_collected _ _ _ _ _ Hcollect). cbn zeta.
  change (default ∅ (Some ?m)) with m. rewrite Hclient, Hapi.
  eexists. split; [done|].
  unfold progressLine, completionLine. rewrite guessGistName_singleton.
  unfold readAllStdin. rewrite Hread. cbn. by rewrite <-app_assoc.
Qed.

(** X12.  One file whose basename does not have the form
    [gistfileN.txt]: when it is read without error and the client and the
    remote call give no error, the map sent has the single entry of the
    basename with the content of the file, the status lines name the
    basename, the primary output stream receives the URL, and standard
    input is left alone. *)
Theorem createRun_single_file (opts : CreateOptions) (w : World R)
    (f content : string) (client : Client) (gist : Gist) :
  Filenames opts = [f] → f ≠ "-" →
  ReadFile env f = (content, None) →
  ¬ syntheticName (Path.Base f) →
  HttpClient env = inl client →
  apiCreate env client (OverridableDefault env) (Description opts) (Public opts)
    {[Path.Base f := content]} = inl gist →
  ∃ w', createRun env opts w = (None, w') ∧
    In w' = In w ∧
    history w' = history w ++ [EvReadFile f None] ∧
    ErrOut w' =
      (ErrOut w +:+ (Gray env "-" +:+ " " +:+ ("Creating gist " +:+ Path.Base f) +:+ Strings.LF))
      +:+ (Green env "???" +:+ " " +:+ ("Created gist " +:+ Path.Base f) +:+ Strings.LF) ∧
    Out w' = Out w +:+ (HTMLURL gist +:+ Strings.LF).
Proof.
  intros Hargs Hf Hread Hreal Hclient Hapi.
  assert (processFiles env (fileArgsOf opts) w =
          ((Some {[Path.Base f := content]}, None), (readFile env f w).2)) as Hcollect.
  { unfold fileArgsOf. rewrite Hargs. cbn [length]. rewrite decide_False by done.
    rewrite processFiles_loop by done. cbn [processFilesFrom].
    rewrite decide_False by done. unfold readFile. by rewrite Hread. }
  rewrite (createRun_collected _ _ _ _ _ Hcollect). cbn zeta.
  change (default ∅ (Some ?m)) with m. rewrite Hclient, Hapi.
  eexists. split; [done|].
  unfold progressLine, completionLine. rewrite guessGistName_singleton.
  apply realName_iff in Hreal. unfold realName in Hreal. rewrite Hreal.
  rewrite map_size_singleton. unfold messages.
  rewrite decide_True by apply Base_nonempty.
  rewrite decide_False by (unfold gt; lia).
  unfold readFile. rewrite Hread. by cbn.
Qed.

(** X13.  Two or more entries and a guessed name: on a run without
    error the progress line is [Creating gist with multiple files], the
    completion line names the guessed name, and the primary output stream
    receives the URL. *)
Theorem createRun_multiple_files (opts : CreateOptions) (w w1 : World R)
    (files : gmap string string) (client : Client) (gist : Gist) :
  processFiles env (fileArgsOf opts) w = ((Some files, None), w1) →
  2 ≤ size files →
  guessGistName files ≠ "" →
  HttpClient env = inl client →
  apiCreate env client (OverridableDefault env) (Description opts) (Public opts)
    files = inl gist →
  ∃ w', createRun env opts w = (None, w') ∧
    ErrOut w' =
      (ErrOut w +:+ (Gray env "-" +:+ " " +:+ "Creating gist with multiple files" +:+ Strings.LF))
      +:+ (Green env "???" +:+ " " +:+ ("Created gist " +:+ guessGistName files) +:+ Strings.LF) ∧
    Out w' = Out w +:+ (HTMLURL gist +:+ Strings.LF).
Proof.
  intros Hcollect Hsize Hname Hclient Hapi.
  rewrite (createRun_collected _ _ _ _ _ Hcollect). cbn zeta.
  rewrite Hclient. change (default ∅ (Some files)) with files. rewrite Hapi.
  destruct (processFiles_frame _ _ _ _ _ Hcollect) as (HOut & HErr & _).
  eexists. split; [done|].
  unfold progressLine, completionLine, messages.
  rewrite decide_True by done. rewrite decide_True by (unfold gt; lia).
  cbn. by rewrite HOut, HErr.
Qed.

(** X14.  [createRun] never hands an empty list to [processFiles], so
    the guard [no files passed] is never what makes it fail: it never
    returns that error with the world untouched, and whenever it returns
    an error without having written the progress line, the error wraps
    the error of a read that failed, that read is the last call in the
    history, and nothing was written to the primary output stream. *)
Theorem createRun_always_has_tokens (opts : CreateOptions) (w : World R) :
  createRun env opts w ≠
    (Some (Errors.Errorf_w "failed to collect files for posting: "
             (Errors.New "no files passed")), w) ∧
  ∀ e w', createRun env opts w = (Some e, w') → ErrOut w' = ErrOut w →
    ∃ c cause evs ev,
      e = Errors.Errorf_w "failed to collect files for posting: " c ∧
      Errors.Unwrap c = Some cause ∧
      c ≠ Errors.New "no files passed" ∧
      history w' = history w ++ evs ++ [ev] ∧ readFailed ev ∧
      Out w' = Out w.
Proof.
  assert (∀ e w', createRun env opts w = (Some e, w') → ErrOut w' = ErrOut w →
    ∃ c cause evs ev,
      e = Errors.Errorf_w "failed to collect files for posting: " c ∧
      Errors.Unwrap c = Some cause ∧
      c ≠ Errors.New "no files passed" ∧
      history w' = history w ++ evs ++ [ev] ∧ readFailed ev ∧
      Out w' = Out w) as Hearly.
  { intros e w' Hrun Herr.
    destruct (processFiles env (fileArgsOf opts) w) as [[fs [e0|]] w1] eqn:Hcollect.
    - rewrite (createRun_collect_failed _ _ _ _ _ _ Hcollect) in Hrun.
      injection Hrun as <- <-.
      destruct (processFiles_frame _ _ _ _ _ Hcollect) as (HOut & _ & _).
      apply processFiles_inv in Hcollect as [(Hnil & _)|(_ & fs' & -> & Hloop)].
      { by apply fileArgsOf_nonempty in Hnil. }
      destruct (processFilesFrom_stops env _ _ _ _ _ _ _ Hloop)
        as (n & f & w_n & ev & _ & Hpre & Hh & _ & Hev).
      destruct (processFilesFrom_frame env _ _ _ _ _ _ _ Hpre) as (_ & _ & evs & Hh').
      rewrite Hh' in Hh. rewrite <-app_assoc in Hh.
      destruct Hev as [(_ & c & -> & ->)|(_ & c & -> & _ & ->)];
        eexists _, c, evs, _; split_and!; done.
    - exfalso.
      destruct (processFiles_frame _ _ _ _ _ Hcollect) as (_ & HErr & _).
      assert (progressLine env (default ∅ fs) ≠ "") as Hline.
      { unfold progressLine.
        by intros [_ [[=] _]%string_app_eq_nil]%string_app_eq_nil. }
      assert (∀ t, (ErrOut w1 +:+ progressLine env (default ∅ fs)) +:+ t ≠ ErrOut w)
        as Hwritten.
      { intros t Heq. rewrite <-HErr, <-string_app_assoc in Heq.
        by apply string_app_id, string_app_eq_nil in Heq as [? _]. }
      rewrite (createRun_collected _ _ _ _ _ Hcollect) in Hrun. cbn zeta in Hrun.
      assert (∀ x, (x, writeErrOut (progressLine env (default ∅ fs)) w1) = (Some e, w')
                → False) as Hone.
      { intros x [= _ <-]. simpl in Herr. apply (Hwritten "").
        by rewrite string_app_nil_r. }
      destruct (HttpClient env) as [client|?]; [|by eapply Hone].
      destruct (apiCreate env client _ _ _ _) as [gist|e1]; [done|].
      destruct (Errors.As_HTTPError e1) as [h|]; [|by eapply Hone].
      destruct (bool_decide _ && _); by eapply Hone. }
  split; [|done]. intros Hrun.
  destruct (Hearly _ _ Hrun eq_refl) as (c & cause & _ & _ & Heq & _ & Hc & _).
  by injection Heq as _ <-.
Qed.

(** X15.  A failed collection: [createRun] returns the error of
    [processFiles] wrapped as [failed to collect files for posting: ...],
    writes nothing to either stream, and the read error that
    [processFiles] wrapped is two [Unwrap] steps down the chain. *)
Theorem createRun_collection_error (opts : CreateOptions) (w w1 : World R)
    (fs : option (gmap string string)) (e : error) :
  processFiles env (fileArgsOf opts) w = ((fs, Some e), w1) →
  ∃ e' cause,
    createRun env opts w = (Some e', w1) ∧
    Errors.Error e' = "failed to collect files for posting: " +:+ Errors.Error e ∧
    Errors.Unwrap e' = Some e ∧
    Errors.Unwrap e = Some cause ∧
    Errors.As_HTTPError e' = Errors.As_HTTPError cause ∧
    Out w1 = Out w ∧ ErrOut w1 = ErrOut w.
Proof.
  intros Hcollect.
  destruct (processFiles_frame _ _ _ _ _ Hcollect) as (HOut & HErr & _).
  rewrite (createRun_collect_failed _ _ _ _ _ _ Hcollect).
  apply processFiles_inv in Hcollect as [(Hnil & _)|(_ & fs' & -> & Hrun)].
  { by apply fileArgsOf_nonempty in Hnil. }
  destruct (processFilesFrom_stops env _ _ _ _ _ _ _ Hrun)
    as (? & ? & ? & ? & _ & _ & _ & _ & [(_ & c & _ & ->)|(_ & c & _ & _ & ->)]);
    by eexists _, c.
Qed.

(** X16.  When the client cannot be acquired the remote call is not
    made: after a collection without error the error returned is the one
    of the client factory, as it is, only the progress line has been
    written, and the result is the same for every remote end, host and
    colouring of the lines that are not reached. *)
Theorem createRun_without_client (env' : Env) (opts : CreateOptions)
    (w w1 : World R) (files : gmap string string) (e : error) :
  processFiles env (fileArgsOf opts) w = ((Some files, None), w1) →
  HttpClient env = inr e →
  sameFiles env env' → HttpClient env' = inr e → Gray env' "-" = Gray env "-" →
  createRun env opts w = (Some e, writeErrOut (progressLine env files) w1) ∧
  createRun env' opts w = createRun env opts w.
Proof.
  intros Hcollect Hclient Hsame Hclient' Hgray.
  assert (createRun env opts w = (Some e, writeErrOut (progressLine env files) w1)) as Hrun.
  { rewrite (createRun_collected _ _ _ _ _ Hcollect). cbn zeta. by rewrite Hclient. }
  split; [done|]. rewrite Hrun.
  rewrite (processFiles_sameFiles env' _ _ Hsame) in Hcollect.
  rewrite (createRun_collected env' _ _ _ _ Hcollect). cbn zeta. rewrite Hclient'.
  unfold progressLine. by rewrite Hgray.
Qed.

(** X17.  [createRun] reads and closes standard input only for a ["-"]
    token or for an empty list of file names: with file names and no
    ["-"] among them the stream is left as it was, whatever the outcome. *)
Theorem createRun_leaves_stdin (opts : CreateOptions) (w : World R) :
  Filenames opts ≠ [] → "-" ∉ Filenames opts →
  In (createRun env opts w).2 = In w ∧
  ∃ evs, history (createRun env opts w).2 = history w ++ evs ∧
         stdinReads evs = 0 ∧ stdinCloses evs = 0.
Proof.
  intros Hne Hdash. destruct (createRun_input opts w) as [-> ->].
  assert (fileArgsOf opts = Filenames opts) as ->.
  { unfold fileArgsOf. rewrite decide_False; [done|]. by destruct (Filenames opts). }
  destruct (processFiles env (Filenames opts) w) as [[fs err] w1] eqn:Hrun. simpl.
  split; [by eapply processFiles_In|].
  apply processFiles_inv in Hrun as [(? & _)|(_ & fs' & _ & Hrun)]; [done|].
  destruct (processFilesFrom_frame env _ _ _ _ _ _ _ Hrun) as (_ & _ & evs & Hh).
  destruct (processFilesFrom_stdin env _ _ _ _ _ _ _ _ Hrun Hh) as (Hreads & Hcloses & _).
  rewrite stdinTokens_none in Hreads by done.
  exists evs. split; [done|]. lia.
Qed.

(** X18.  On a terminal the command does not wait for input that was
    not asked for: with no argument it fails with the flag error
    [no filenames passed and nothing on STDIN] before anything is read or
    written, and with arguments that have no ["-"] it leaves standard
    input as it was. *)
Theorem command_on_terminal (opts : CreateOptions) (args : list string)
    (w : World R) :
  "-" ∉ args →
  (args = [] →
   ∀ runF, execute env true runF opts args w =
     (Some (FlagError (Errors.New "no filenames passed and nothing on STDIN")), w)) ∧
  In (execute env true None opts args w).2 = In w ∧
  ∃ evs, history (execute env true None opts args w).2 = history w ++ evs ∧
         stdinReads evs = 0 ∧ stdinCloses evs = 0.
Proof.
  intros Hdash. split; [by intros ->|].
  destruct args as [|a args].
  - split; [done|]. exists []. by rewrite app_nil_r.
  - unfold execute, cmdArgs. rewrite decide_True by (simpl; unfold gt; lia).
    unfold cmdRunE.
    set (opts' := {| Description := Description opts; Public := Public opts;
                     Filenames := a :: args |}).
    destruct (createRun_input opts' w) as [-> ->].
    assert (fileArgsOf opts' = a :: args) as -> by done.
    destruct (processFiles env (a :: args) w) as [[fs err] w1] eqn:Hrun. simpl.
    split; [by eapply processFiles_In|].
    apply processFiles_inv in Hrun as [(? & _)|(_ & fs' & _ & Hrun)]; [done|].
    destruct (processFilesFrom_frame env _ _ _ _ _ _ _ Hrun) as (_ & _ & evs & Hh).
    destruct (processFilesFrom_stdin env _ _ _ _ _ _ _ _ Hrun Hh) as (Hreads & Hcloses & _).
    rewrite stdinTokens_none in Hreads by done.
    exists evs. split; [done|]. lia.
Qed.

End RunExtras.

(** * Part IX: the further properties on concrete runs *)

Section ConcreteExtras.

Import Examples MoreExamples.

Local Ltac by_computation := vm_compute; reflexivity.
Local Ltac no_stdin_token :=
  let H := fresh in
  intros H; repeat (apply elem_of_cons in H as [H|H]; [discriminate|]);
  by apply elem_of_nil in H.

Lemma processFiles_keys_witness :
  (∀ k, k ∈ dom filesMixed ↔ ∃ n f, argsMixed !! n = Some f ∧ k = tokenKey n f) ∧
  "" ∉ dom filesMixed.
Proof.
  apply (processFiles_keys envSameBase argsMixed piped filesMixed collectMixed.2).
  by_computation.
Defined.

Lemma processFiles_last_token_wins_witness :
  filesMixed !! Path.Base "b/hello.py" = Some (ReadFile envSameBase "b/hello.py").1.
Proof.
  apply (processFiles_last_token_wins envSameBase argsMixed piped filesMixed
           collectMixed.2 2 "b/hello.py").
  - by_computation.
  - reflexivity.
  - discriminate.
  - intros m g Hm Hg. destruct m as [|[|[|m]]]; [lia..|discriminate].
Defined.

Lemma processFiles_size_witness :
  1 ≤ size filesMixed ≤ length argsMixed ∧
  ((∀ n m f g, argsMixed !! n = Some f → argsMixed !! m = Some g →
      tokenKey n f = tokenKey m g → n = m) →
   size filesMixed = length argsMixed).
Proof.
  apply (processFiles_size envSameBase argsMixed piped filesMixed collectMixed.2).
  by_computation.
Defined.

Lemma processFiles_stops_at_first_failure_witness :
  ∃ n f fs_n w_n ev,
    argsMissing !! n = Some f ∧ collectFailing.1.1 = Some fs_n ∧
    processFilesFrom envSameBase 0 (take n argsMissing) ∅ piped = ((fs_n, None), w_n) ∧
    history collectFailing.2 = history w_n ++ [ev] ∧
    ((f = "-" ∧ ∃ c, ev = EvReadAll (Some c) ∧
        errFailing = Errors.Errorf_w "failed to read from stdin: " c) ∨
     (f ≠ "-" ∧ ∃ c, ev = EvReadFile f (Some c) ∧
        (ReadFile envSameBase f).2 = Some c ∧
        errFailing = Errors.Errorf_w ("failed to read file " +:+ f +:+ ": ") c)).
Proof.
  apply (processFiles_stops_at_first_failure envSameBase argsMissing piped).
  - by_computation.
  - discriminate.
Defined.

Lemma processFiles_leaves_stdin_witness :
  In (processFiles envSameBase argsSameBase piped).2 = In piped ∧
  ∃ evs, history (processFiles envSameBase argsSameBase piped).2 = history piped ++ evs ∧
         stdinReads evs = 0 ∧ stdinCloses evs = 0.
Proof.
  apply (processFiles_leaves_stdin envSameBase argsSameBase piped
           (processFiles envSameBase argsSameBase piped).1).
  - no_stdin_token.
  - by_computation.
Defined.

Lemma guessed_name_is_a_file_witness :
  (guessGistName filesMixed = "" ∨
   ∃ n f, argsMixed !! n = Some f ∧ f ≠ "-" ∧ guessGistName filesMixed = Path.Base f) ∧
  ((∀ f, f ∈ argsMixed → f = "-") → guessGistName filesMixed = "").
Proof.
  apply (guessed_name_is_a_file envSameBase argsMixed piped filesMixed collectMixed.2).
  by_computation.
Defined.

Lemma guessGistName_real_keys_only_witness :
  guessGistName filesABC = guessGistName filesABC'.
Proof.
  apply (guessGistName_real_keys_only filesABC filesABC').
  intros k _. unfold filesABC'. by rewrite dom_fmap_L.
Defined.

Lemma createRun_from_pipe_witness :
  ∃ w', createRun envSameBase optsPipe piped = (None, w') ∧
    In w' = Close {| pending := "" |} ∧
    history w' = history piped ++ [EvReadAll None; EvClose] ∧
    ErrOut w' =
      (ErrOut piped +:+ (Gray envSameBase "-" +:+ " " +:+ "Creating gist..." +:+ Strings.LF))
      +:+ (Green envSameBase "???" +:+ " " +:+ "Created gist" +:+ Strings.LF) ∧
    Out w' = Out piped +:+ (HTMLURL gist1 +:+ Strings.LF).
Proof.
  apply (createRun_from_pipe envSameBase optsPipe piped "piped text"
           {| pending := "" |} tt gist1); reflexivity.
Defined.

Lemma createRun_single_file_witness :
  ∃ w', createRun envHello optsHello piped = (None, w') ∧
    In w' = In piped ∧
    history w' = history piped ++ [EvReadFile "src/hello.py" None] ∧
    ErrOut w' =
      (ErrOut piped +:+ (Gray envHello "-" +:+ " " +:+
         ("Creating gist " +:+ Path.Base "src/hello.py") +:+ Strings.LF))
      +:+ (Green envHello "???" +:+ " " +:+
         ("Created gist " +:+ Path.Base "src/hello.py") +:+ Strings.LF) ∧
    Out w' = Out piped +:+ (HTMLURL gist1 +:+ Strings.LF).
Proof.
  apply (createRun_single_file envHello optsHello piped "src/hello.py" "print(1)"
           tt gist1); try reflexivity.
  - discriminate.
  - apply realName_iff. by_computation.
Defined.

Lemma createRun_multiple_files_witness :
  ∃ w', createRun envSameBase (optsFor argsMixed) piped = (None, w') ∧
    ErrOut w' =
      (ErrOut piped +:+ (Gray envSameBase "-" +:+ " " +:+
         "Creating gist with multiple files" +:+ Strings.LF))
      +:+ (Green envSameBase "???" +:+ " " +:+
         ("Created gist " +:+ guessGistName filesMixed) +:+ Strings.LF) ∧
    Out w' = Out piped +:+ (HTMLURL gist1 +:+ Strings.LF).
Proof.
  apply (createRun_multiple_files envSameBase (optsFor argsMixed) piped
           collectMixed.2 filesMixed tt gist1).
  - by_computation.
  - vm_compute. lia.
  - vm_compute. discriminate.
  - reflexivity.
  - reflexivity.
Defined.

Lemma createRun_always_has_tokens_witness :
  ∃ c cause evs ev,
    errRunFailing = Errors.Errorf_w "failed to collect files for posting: " c ∧
    Errors.Unwrap c = Some cause ∧
    c ≠ Errors.New "no files passed" ∧
    history runFailing.2 = history piped ++ evs ++ [ev] ∧ readFailed ev ∧
    Out runFailing.2 = Out piped.
Proof.
  apply (proj2 (createRun_always_has_tokens envSameBase (optsFor argsMissing) piped));
    by_computation.
Defined.

Lemma createRun_collection_error_witness :
  ∃ e' cause,
    createRun envSameBase (optsFor argsMissing) piped = (Some e', collectFailing.2) ∧
    Errors.Error e' = "failed to collect files for posting: " +:+ Errors.Error errFailing ∧
    Errors.Unwrap e' = Some errFailing ∧
    Errors.Unwrap errFailing = Some cause ∧
    Errors.As_HTTPError e' = Errors.As_HTTPError cause ∧
    Out collectFailing.2 = Out piped ∧ ErrOut collectFailing.2 = ErrOut piped.
Proof.
  apply (createRun_collection_error envSameBase (optsFor argsMissing) piped
           collectFailing.2 collectFailing.1.1 errFailing).
  by_computation.
Defined.

Lemma createRun_without_client_witness :
  createRun envNoClient (optsFor argsMixed) piped =
    (Some (errorString "could not find hosts config"),
     writeErrOut (progressLine envNoClient filesMixed) collectMixed.2) ∧
  createRun envNoClient' (optsFor argsMixed) piped =
    createRun envNoClient (optsFor argsMixed) piped.
Proof.
  apply (createRun_without_client envNoClient envNoClient' (optsFor argsMixed) piped).
  - by_computation.
  - reflexivity.
  - intros f. reflexivity.
  - reflexivity.
  - reflexivity.
Defined.

Lemma createRun_leaves_stdin_witness :
  In (createRun envSameBase (optsFor argsSameBase) piped).2 = In piped ∧
  ∃ evs, history (createRun envSameBase (optsFor argsSameBase) piped).2
           = history piped ++ evs ∧
         stdinReads evs = 0 ∧ stdinCloses evs = 0.
Proof.
  apply (createRun_leaves_stdin envSameBase (optsFor argsSameBase) piped).
  - discriminate.
  - no_stdin_token.
Defined.

Lemma command_on_terminal_witness :
  (([] : list string) = [] →
   ∀ runF, execute envSameBase true runF optsPipe [] piped =
     (Some (FlagError (Errors.New "no filenames passed and nothing on STDIN")), piped)) ∧
  In (execute envSameBase true None optsPipe [] piped).2 = In piped ∧
  ∃ evs, history (execute envSameBase true None optsPipe [] piped).2
           = history piped ++ evs ∧
         stdinReads evs = 0 ∧ stdinCloses evs = 0.
Proof.
  apply (command_on_terminal envSameBase optsPipe [] piped).
  no_stdin_token.
Defined.

End ConcreteExtras.
